(** * The Terraform loader of checkov (checkov/terraform/parser.py)

    A shallow embedding of the loader/expander core: the payload values the
    HCL and JSON decoders produce, the type normaliser, the raw-parser
    filters, the variable precedence of one directory load, the
    unresolved-parameter gate and the module-load loop.

    Conventions.
    - A Python [str] is a [string]; a character is a code point below 256
      (ASCII and the Latin-1 supplement), compared by code point as Python
      does.
    - A Python [dict] is an association list in insertion order.
    - What the module imports from elsewhere ([hcl2.load], [json.load],
      [os.scandir], [find_var_blocks], the module loader registry,
      [deep_merge.merge]) is taken as a parameter, gathered in [World]. *)

From Stdlib Require Import List String Ascii ZArith Bool Lia Arith.
From Stdlib Require Import Sorting.Sorted Permutation.
Import ListNotations.
Set Warnings "-register-all".
Local Open Scope string_scope.
Local Open Scope list_scope.

(* ================================================================= *)
(** * Definitions *)
(* ================================================================= *)

(** ** Strings *)

(** [s.startswith(p)] *)
Definition startswith (s p : string) : bool := String.prefix p s.

Fixpoint is_prefix (p s : list ascii) : bool :=
  match p, s with
  | [], _ => true
  | _ :: _, [] => false
  | a :: p', b :: s' => Ascii.eqb a b && is_prefix p' s'
  end.

(** [s.endswith(p)]: read from the end, [p] is a prefix of [s] *)
Definition endswith (s p : string) : bool :=
  is_prefix (rev (list_ascii_of_string p)) (rev (list_ascii_of_string s)).

(** [s[n:]] *)
Definition str_drop (n : nat) (s : string) : string :=
  substring n (String.length s - n) s.

(** ** Sorting: [list.sort()] is a stable sort; so is insertion from the right. *)

Section Sort.
Context {A : Type} (leb : A -> A -> bool).

Fixpoint insert (x : A) (l : list A) : list A :=
  match l with
  | [] => [x]
  | y :: l' => if leb x y then x :: y :: l' else y :: insert x l'
  end.

Fixpoint sort (l : list A) : list A :=
  match l with
  | [] => []
  | x :: l' => insert x (sort l')
  end.

Fixpoint sortedb (l : list A) : bool :=
  match l with
  | [] => true
  | x :: l' =>
      match l' with
      | [] => true
      | y :: _ => leb x y && sortedb l'
      end
  end.
End Sort.

(** ** Payload values *)

(** Keys of a mapping: strings, and integers (the normaliser checks that
    the keys share one type before it sorts them). *)
Inductive key : Type :=
| KStr (s : string)
| KInt (z : Z).

(** A decoded value.  [VTree body] is a residual [lark.Tree], whose [str]
    is ["Tree(" ++ body ++ ")"]; [VSet] lists the elements of a [set] in
    its iteration order. *)
Inductive value : Type :=
| VNone
| VBool (b : bool)
| VInt (z : Z)
| VStr (s : string)
| VList (l : list value)
| VDict (d : list (key * value))
| VSet (l : list value)
| VTree (body : string).

Definition dict : Type := list (key * value).

Definition key_eqb (a b : key) : bool :=
  match a, b with
  | KStr x, KStr y => String.eqb x y
  | KInt x, KInt y => Z.eqb x y
  | _, _ => false
  end.

(** [type(a) is type(b)] on keys *)
Definition same_key_type (a b : key) : bool :=
  match a, b with
  | KStr _, KStr _ => true
  | KInt _, KInt _ => true
  | _, _ => false
  end.

(** [a <= b] on keys of one type (integers before strings otherwise, a case
    the normaliser never sorts). *)
Definition key_leb (a b : key) : bool :=
  match a, b with
  | KStr x, KStr y => String.leb x y
  | KInt x, KInt y => Z.leb x y
  | KInt _, KStr _ => true
  | KStr _, KInt _ => false
  end.

(** [d.get(k)] *)
Fixpoint dict_get (k : key) (d : dict) : option value :=
  match d with
  | [] => None
  | (k', v) :: d' => if key_eqb k k' then Some v else dict_get k d'
  end.

(** [d[k]] for a key of [d] *)
Definition dict_item (k : key) (d : dict) : value :=
  match dict_get k d with
  | Some v => v
  | None => VNone
  end.

(** [d[k] = v]: replaces in place, or appends a new key at the end *)
Fixpoint dict_set (k : key) (v : value) (d : dict) : dict :=
  match d with
  | [] => [(k, v)]
  | (k', v') :: d' => if key_eqb k k' then (k', v) :: d' else (k', v') :: dict_set k v d'
  end.

Definition is_str (v : value) : bool :=
  match v with VStr _ => true | _ => false end.

(** Python truthiness, [bool(v)] *)
Definition truthy (v : value) : bool :=
  match v with
  | VNone => false
  | VBool b => b
  | VInt z => negb (Z.eqb z 0)
  | VStr s => negb (String.eqb s "")
  | VList l => match l with [] => false | _ => true end
  | VDict d => match d with [] => false | _ => true end
  | VSet l => match l with [] => false | _ => true end
  | VTree _ => true
  end.

(** ** TypeNormalizer: [Parser._clean_parser_types] and
    [Parser._clean_parser_types_lst] *)

Definition str_of_tree (body : string) : string := "Tree(" ++ body ++ ")".

(** [[val for val in values if isinstance(val, str)]] *)
Fixpoint str_values (values : list value) : list string :=
  match values with
  | [] => []
  | VStr s :: r => s :: str_values r
  | _ :: r => str_values r
  end.

(** The tail of [_clean_parser_types_lst]: the non-strings in their order,
    then the strings sorted. *)
Definition partition_strs (values : list value) : list value :=
  filter (fun v => negb (is_str v)) values
  ++ map VStr (sort String.leb (str_values values)).

(** [all(isinstance(x, first_key_type) for x in sorted_keys)] *)
Definition all_first_type (ks : list key) : bool :=
  match ks with
  | [] => true
  | k0 :: _ => forallb (same_key_type k0) ks
  end.

(** [sorted_keys], then [{key: conf[key] for key in sorted_keys}] *)
Definition sorted_keys (conf : dict) : list key :=
  let ks := map fst conf in
  if all_first_type ks then sort key_leb ks else ks.

Definition reorder (conf : dict) : dict :=
  map (fun k => (k, dict_item k conf)) (sorted_keys conf).

(** The two loops over the members.  [in_dict = true] is the attribute loop
    of [_clean_parser_types], [in_dict = false] the element loop of
    [_clean_parser_types_lst]; they differ on a [Tree] only.  The attribute
    loop is pointwise in the key, so it is applied here before the keys are
    reordered. *)
Fixpoint clean (in_dict : bool) (v : value) : value :=
  match v with
  | VList l => VList (partition_strs (map (clean false) l))
  | VDict d =>
      VDict (reorder (map (fun kv =>
                             let '(k, x) := kv in
                             (k, if key_eqb k (KStr "alias") then x else clean true x)) d))
  | VStr s =>
      if String.eqb s "true" then VBool true
      else if String.eqb s "false" then VBool false
      else v
  | VSet l => VList (partition_strs (map (clean false) l))
  | VTree body => if in_dict then VStr (str_of_tree body) else v
  | _ => v
  end.

Definition clean_attribute (kv : key * value) : key * value :=
  let '(k, x) := kv in (k, if key_eqb k (KStr "alias") then x else clean true x).

Definition _clean_parser_types (conf : dict) : dict :=
  match conf with
  | [] => conf
  | _ => reorder (map clean_attribute conf)
  end.

Definition _clean_parser_types_lst (values : list value) : list value :=
  partition_strs (map (clean false) values).


(** ** Paths: [os.path.basename], [os.path.dirname] (POSIX) *)

Definition slash : ascii := "/"%char.

(** The characters after the last ['/'] of [s], given those read so far
    since the last ['/'] (in reverse). *)
Fixpoint split_last_slash (s : list ascii) (head cur : list ascii)
  : list ascii * list ascii :=
  match s with
  | [] => (head, rev cur)
  | c :: r =>
      if Ascii.eqb c slash
      then split_last_slash r (head ++ rev cur ++ [c]) []
      else split_last_slash r head (c :: cur)
  end.

(** [p[:i]] and [p[i:]] for [i = p.rfind('/') + 1] *)
Definition path_split (p : string) : string * string :=
  let '(h, t) := split_last_slash (list_ascii_of_string p) [] [] in
  (string_of_list_ascii h, string_of_list_ascii t).

Definition basename (p : string) : string := snd (path_split p).

(** [head.rstrip('/')] on the reversed characters *)
Fixpoint drop_slashes (r : list ascii) : list ascii :=
  match r with
  | c :: r' => if Ascii.eqb c slash then drop_slashes r' else r
  | [] => []
  end.

(** [os.path.dirname]: the head, without its trailing slashes unless it
    consists of slashes only. *)
Definition dirname (p : string) : string :=
  let h := list_ascii_of_string (fst (path_split p)) in
  match drop_slashes (rev h) with
  | [] => string_of_list_ascii h
  | r => string_of_list_ascii (rev r)
  end.

(** ** The identifier pattern [ENTITY_NAME_PATTERN = [^\W0-9][\w-]*] *)

Definition in_range (lo hi n : nat) : bool := (lo <=? n)%nat && (n <=? hi)%nat.

Definition is_ascii_digit (c : ascii) : bool := in_range 48 57 (nat_of_ascii c).

Definition is_ascii_letter (c : ascii) : bool :=
  let n := nat_of_ascii c in in_range 65 90 n || in_range 97 122 n.

Definition is_underscore (c : ascii) : bool := Nat.eqb (nat_of_ascii c) 95.

Definition is_hyphen (c : ascii) : bool := Nat.eqb (nat_of_ascii c) 45.

(** The alphanumeric code points of the Latin-1 supplement: the letters
    U+00AA, U+00B5, U+00BA, U+00C0..U+00D6, U+00D8..U+00F6, U+00F8..U+00FF
    and the numeric U+00B2, U+00B3, U+00B9, U+00BC..U+00BE. *)
Definition is_latin1_alnum (c : ascii) : bool :=
  let n := nat_of_ascii c in
  Nat.eqb n 170 || Nat.eqb n 181 || Nat.eqb n 186
  || in_range 192 214 n || in_range 216 246 n || in_range 248 255 n
  || Nat.eqb n 178 || Nat.eqb n 179 || Nat.eqb n 185 || in_range 188 190 n.

(** [\w] of a [str] pattern: alphanumeric (in Unicode) or ['_'] *)
Definition is_word (c : ascii) : bool :=
  is_ascii_letter c || is_ascii_digit c || is_underscore c || is_latin1_alnum c.

(** [[^\W0-9]] *)
Definition is_name_start (c : ascii) : bool := is_word c && negb (is_ascii_digit c).

(** [[\w-]] *)
Definition is_name_char (c : ascii) : bool := is_word c || is_hyphen c.

Fixpoint all_chars (p : ascii -> bool) (s : string) : bool :=
  match s with
  | EmptyString => true
  | String c r => p c && all_chars p r
  end.

(** [re.fullmatch(ENTITY_NAME_PATTERN, s) is not None] *)
Definition fullmatch_entity_name (s : string) : bool :=
  match s with
  | EmptyString => false
  | String c r => is_name_start c && all_chars is_name_char r
  end.

(** The grammar [[A-Za-z_][A-Za-z0-9_-]*] of the specification. *)
Definition ascii_identifier (s : string) : bool :=
  match s with
  | EmptyString => false
  | String c r =>
      (is_ascii_letter c || is_underscore c)
      && all_chars (fun x => is_ascii_letter x || is_ascii_digit x
                             || is_underscore x || is_hyphen x) r
  end.

Definition is_ascii_string (s : string) : bool :=
  all_chars (fun c => (nat_of_ascii c <? 128)%nat) s.

(** ** RawParser *)

(** Exceptions that the loader meets. *)
Inductive exn : Type :=
| OSError            (* the file or directory cannot be read *)
| DecodeError        (* [hcl2.load] or [json.load] rejects the text *)
| TypeError          (* an operation applied to a value of the wrong type *)
| AttributeError     (* a method looked up on a value that lacks it *)
| IndexError
| KeyError
| LoaderError        (* raised by the module loader registry *)
| RecursionError.

(** [_Hcl2Payload]: what [hcl2.load] returns, block type to blocks *)
Definition hcl_payload : Type := list (string * list value).

Definition payload_value (p : hcl_payload) : value :=
  VDict (map (fun '(block_type, blocks) => (KStr block_type, VList blocks)) p).

(** [_is_valid_block]; [inl TypeError] when [re.fullmatch] is given a key
    that is not a string. *)
Definition _is_valid_block (block : value) : exn + bool :=
  match block with
  | VDict [] => inr false
  | VDict ((KStr entity_name, _) :: _) => inr (fullmatch_entity_name entity_name)
  | VDict ((KInt _, _) :: _) => inl TypeError
  | _ => inr true
  end.

(** [[block for block in blocks if _is_valid_block(block)]] *)
Fixpoint valid_blocks (blocks : list value) : exn + list value :=
  match blocks with
  | [] => inr []
  | block :: r =>
      match _is_valid_block block with
      | inl e => inl e
      | inr keep =>
          match valid_blocks r with
          | inl e => inl e
          | inr r' => inr (if keep then block :: r' else r')
          end
      end
  end.

Fixpoint validate_malformed_definitions (raw_data : hcl_payload) : exn + hcl_payload :=
  match raw_data with
  | [] => inr []
  | (block_type, blocks) :: r =>
      match valid_blocks blocks with
      | inl e => inl e
      | inr blocks' =>
          match validate_malformed_definitions r with
          | inl e => inl e
          | inr r' => inr ((block_type, blocks') :: r')
          end
      end
  end.

(** Modelled from the spec: [GOOD_BLOCK_TYPES] holds [BlockType.LOCALS] and
    [BlockType.TERRAFORM], whose declaration is not part of the sources; the
    specification gives the set as [{locals, terraform}]. *)
Definition GOOD_BLOCK_TYPES : list string := ["locals"; "terraform"].

Definition is_good_block_type (block_type : string) : bool :=
  existsb (String.eqb block_type) GOOD_BLOCK_TYPES.

Definition clean_bad_definitions (tf_definition_list : hcl_payload) : hcl_payload :=
  map (fun '(block_type, definition_list) =>
         (block_type,
          filter (fun definition =>
                    is_good_block_type block_type
                    || match definition with
                       | VDict d => Nat.eqb (List.length d) 1
                       | _ => true
                       end) definition_list))
      tf_definition_list.

(** The decoders, consumed as black boxes: the result of opening and
    decoding the file at a path. *)
Record Decoders : Type := {
  json_load : string -> exn + value;
  hcl2_load : string -> exn + hcl_payload
}.

(** [parsing_errors]: path to exception *)
Definition errors : Type := list (string * exn).

Fixpoint errors_set (path : string) (e : exn) (errs : errors) : errors :=
  match errs with
  | [] => [(path, e)]
  | (p, e') :: r =>
      if String.eqb path p then (p, e) :: r else (p, e') :: errors_set path e r
  end.

(** [_load_or_die_quietly(file, parsing_errors, clean_definitions)]: the
    value returned and the error sink afterwards. *)
Definition _load_or_die_quietly (dec : Decoders) (file_path : string)
    (parsing_errors : errors) (clean_definitions : bool)
  : option value * errors :=
  let file_name := basename file_path in
  let attempt : exn + value :=
    if endswith file_name ".json" then json_load dec file_path
    else
      match hcl2_load dec file_path with
      | inl e => inl e
      | inr raw_data =>
          match validate_malformed_definitions raw_data with
          | inl e => inl e
          | inr non_malformed_definitions =>
              if clean_definitions
              then inr (payload_value (clean_bad_definitions non_malformed_definitions))
              else inr (payload_value non_malformed_definitions)
          end
      end in
  match attempt with
  | inr v => (Some v, parsing_errors)
  | inl e => (None, errors_set file_path e parsing_errors)
  end.

(** ** The unresolved-parameter gate *)

(** [is_acceptable_module_param], given [simple_var s]: whether
    [find_var_blocks(s)] yields a match with [is_simple_var()]. *)
Fixpoint is_acceptable_module_param (simple_var : string -> bool) (v : value) : bool :=
  match v with
  | VDict d =>
      forallb (fun kv =>
                 let '(k, x) := kv in
                 is_acceptable_module_param simple_var x
                 && match k with
                    | KStr s => negb (simple_var s)
                    | KInt _ => true
                    end) d
  | VSet l => forallb (is_acceptable_module_param simple_var) l
  | VList l => forallb (is_acceptable_module_param simple_var) l
  | VStr s => negb (simple_var s)
  | _ => true
  end.

Definition is_acceptable_module_key (simple_var : string -> bool) (k : key) : bool :=
  match k with
  | KStr s => negb (simple_var s)
  | KInt _ => true
  end.

(** The loop over [specified_vars.items()] that sets [has_unresolved_params] *)
Definition has_unresolved_params (simple_var : string -> bool) (specified_vars : dict) : bool :=
  existsb (fun '(k, v) =>
             negb (is_acceptable_module_param simple_var v)
             || negb (is_acceptable_module_key simple_var k)) specified_vars.

(** Whether the gate defers the call: [not ignore_unresolved_params] and
    [has_unresolved_params]. *)
Definition gate_defers (simple_var : string -> bool) (ignore_unresolved_params : bool)
    (specified_vars : dict) : bool :=
  negb ignore_unresolved_params && has_unresolved_params simple_var specified_vars.

(** No string anywhere in the structure of a value, keys included. *)
Fixpoint string_free (v : value) : bool :=
  match v with
  | VStr _ => false
  | VList l => forallb string_free l
  | VSet l => forallb string_free l
  | VDict d =>
      forallb (fun kv =>
                 let '(k, x) := kv in
                 string_free x && match k with KStr _ => false | KInt _ => true end) d
  | _ => true
  end.

Definition string_free_key (k : key) : bool :=
  match k with KStr _ => false | KInt _ => true end.

(** ** The world around the loader *)

(** [os.DirEntry]: [is_file] is what the method returns or raises. *)
Record DirEntry : Type := {
  name : string;
  path : string;
  is_file : exn + bool
}.

(** [ModuleContent]: what [loaded()] and [path()] return *)
Record ModuleContent : Type := {
  loaded : bool;
  content_path : string
}.

(** What the loader consumes from outside the module. *)
Record World : Type := {
  (* [list(os.scandir(directory))] *)
  scandir : string -> exn + list DirEntry;
  (* [hcl2.load] and [json.load] on the file at a path *)
  decoders : Decoders;
  (* whether [find_var_blocks(s)] yields a match with [is_simple_var()] *)
  simple_var : string -> bool;
  (* [module_loader_registry.load(root_dir, source, version)] *)
  registry_load : string -> string -> value -> exn + ModuleContent;
  (* [os.path.normpath] *)
  normpath : string -> string;
  (* [re.sub(RESOLVED_MODULE_PATTERN, '', path)] *)
  re_sub_resolved : string -> string;
  (* [deep_merge.merge] on two payloads stored under one key *)
  deep_merge_value : value -> value -> value;
  (* [list.sort()] on a list that holds something other than strings:
     the list afterwards and the exception raised, if any *)
  sort_mixed : list value -> list value * option exn;
  (* [filter_ignored_paths(directory, dir_contents, excluded_paths)] *)
  filter_ignored_paths : string -> list DirEntry -> option (list string) -> list DirEntry;
  IGNORE_HIDDEN_DIRECTORY_ENV : bool;
  (* the directories [os.walk] yields, after [_filter_ignored_paths] *)
  walk : string -> list string;
  (* [os.path.abspath] *)
  abspath : string -> string
}.

(** [os.path.join(a, b)] *)
Definition path_join (a b : string) : string :=
  if startswith b "/" then b
  else if String.eqb a "" || endswith a "/" then a ++ b
  else a ++ "/" ++ b.

(** ** VarResolver: stages 1 and 2 of [_internal_dir_load] *)

(** The files of a directory, as stage 1 sorts them out. *)
Record Scan : Type := {
  hcl_tfvars : option DirEntry;
  json_tfvars : option DirEntry;
  auto_vars_files : list DirEntry;
  explicit_var_files : list DirEntry;
  tf_files_to_load : list DirEntry
}.

Definition empty_scan : Scan := {|
  hcl_tfvars := None; json_tfvars := None; auto_vars_files := [];
  explicit_var_files := []; tf_files_to_load := []
|}.

Definition in_strings (s : string) (l : list string) : bool := existsb (String.eqb s) l.

(** [vars_files and file.path in vars_files] *)
Definition is_explicit_var_file (vars_files : option (list string)) (p : string) : bool :=
  match vars_files with
  | Some l => in_strings p l
  | None => false
  end.

(** One turn of the loop over [dir_contents]. *)
Definition scan_entry (vars_files : option (list string)) (sc : Scan) (file : DirEntry) : Scan :=
  match is_file file with
  | inl _ => sc                                   (* except OSError: continue *)
  | inr false => sc
  | inr true =>
      if String.eqb (name file) "terraform.tfvars.json" then
        {| hcl_tfvars := hcl_tfvars sc; json_tfvars := Some file;
           auto_vars_files := auto_vars_files sc;
           explicit_var_files := explicit_var_files sc;
           tf_files_to_load := tf_files_to_load sc |}
      else if String.eqb (name file) "terraform.tfvars" then
        {| hcl_tfvars := Some file; json_tfvars := json_tfvars sc;
           auto_vars_files := auto_vars_files sc;
           explicit_var_files := explicit_var_files sc;
           tf_files_to_load := tf_files_to_load sc |}
      else if endswith (name file) ".auto.tfvars.json" || endswith (name file) ".auto.tfvars" then
        {| hcl_tfvars := hcl_tfvars sc; json_tfvars := json_tfvars sc;
           auto_vars_files := auto_vars_files sc ++ [file];
           explicit_var_files := explicit_var_files sc;
           tf_files_to_load := tf_files_to_load sc |}
      else if is_explicit_var_file vars_files (path file) then
        {| hcl_tfvars := hcl_tfvars sc; json_tfvars := json_tfvars sc;
           auto_vars_files := auto_vars_files sc;
           explicit_var_files := explicit_var_files sc ++ [file];
           tf_files_to_load := tf_files_to_load sc |}
      else if endswith (name file) ".tf" || endswith (name file) ".hcl" then
        {| hcl_tfvars := hcl_tfvars sc; json_tfvars := json_tfvars sc;
           auto_vars_files := auto_vars_files sc;
           explicit_var_files := explicit_var_files sc;
           tf_files_to_load := tf_files_to_load sc ++ [file] |}
      else sc
  end.

Definition scan_directory (vars_files : option (list string)) (dir_contents : list DirEntry) : Scan :=
  fold_left (scan_entry vars_files) dir_contents empty_scan.

(** What stage 1 takes for a resource file. *)
Definition is_resource_file (vars_files : option (list string)) (file : DirEntry) : bool :=
  match is_file file with
  | inr true =>
      negb (String.eqb (name file) "terraform.tfvars.json")
      && negb (String.eqb (name file) "terraform.tfvars")
      && negb (endswith (name file) ".auto.tfvars.json" || endswith (name file) ".auto.tfvars")
      && negb (is_explicit_var_file vars_files (path file))
      && (endswith (name file) ".tf" || endswith (name file) ".hcl")
  | _ => false
  end.

(** [var_value_and_file_map]: name to (value, origin) *)
Definition var_map : Type := list (key * (value * string)).

Fixpoint vm_get (k : key) (m : var_map) : option (value * string) :=
  match m with
  | [] => None
  | (k', b) :: r => if key_eqb k k' then Some b else vm_get k r
  end.

Fixpoint vm_set (k : key) (b : value * string) (m : var_map) : var_map :=
  match m with
  | [] => [(k, b)]
  | (k', b') :: r => if key_eqb k k' then (k', b) :: r else (k', b') :: vm_set k b r
  end.

(** [_safe_index(v, 0)]: [IndexError] is caught, anything else is not. *)
Definition _safe_index0 (v : value) : exn + value :=
  match v with
  | VList (x :: _) => inr x
  | VList [] => inr VNone
  | VStr (String c _) => inr (VStr (String c EmptyString))
  | VStr EmptyString => inr VNone
  | VDict d => match dict_get (KInt 0) d with Some x => inr x | None => inl KeyError end
  | _ => inl TypeError
  end.

(** [m.update({k: (f(v), origin) for k, v in items})] *)
Fixpoint vm_update (f : value -> exn + value) (origin : string) (items : dict) (m : var_map)
  : exn + var_map :=
  match items with
  | [] => inr m
  | (k, v) :: r =>
      match f v with
      | inl e => inl e
      | inr x => vm_update f origin r (vm_set k (x, origin) m)
      end
  end.

(** The same on the data of a file: nothing when the data is falsy, and
    [data.items()] needs a mapping. *)
Definition vm_update_data (f : value -> exn + value) (origin : string)
    (data : option value) (m : var_map) : exn + var_map :=
  match data with
  | None => inr m
  | Some v =>
      if truthy v then
        match v with
        | VDict items => vm_update f origin items m
        | _ => inl AttributeError
        end
      else inr m
  end.

(** The defaults of the [variable] blocks of one file. *)
Definition var_definition_default (var_definition : value) : exn + option value :=
  match var_definition with
  | VDict d =>
      match dict_get (KStr "default") d with
      | Some (VList (x :: _)) => inr (Some x)
      | Some (VList []) => inl IndexError
      | _ => inr None
      end
  | _ => inr None
  end.

Fixpoint var_block_defaults (file : string) (items : dict) (m : var_map) : exn + var_map :=
  match items with
  | [] => inr m
  | (var_name, var_definition) :: r =>
      match var_definition_default var_definition with
      | inl e => inl e
      | inr (Some x) => var_block_defaults file r (vm_set var_name (x, file) m)
      | inr None => var_block_defaults file r m
      end
  end.

Fixpoint var_blocks_defaults (file : string) (var_blocks : list value) (m : var_map)
  : exn + var_map :=
  match var_blocks with
  | [] => inr m
  | VDict items :: r =>
      match var_block_defaults file items m with
      | inl e => inl e
      | inr m' => var_blocks_defaults file r m'
      end
  | _ :: r => var_blocks_defaults file r m
  end.

(** [data.get("variable")], checked to be a non-empty list *)
Definition file_defaults (file : string) (data : value) (m : var_map) : exn + var_map :=
  match data with
  | VDict d =>
      match dict_get (KStr "variable") d with
      | Some (VList (b :: r)) => var_blocks_defaults file (b :: r) m
      | _ => inr m
      end
  | _ => inl AttributeError
  end.

(** The environment: [TF_VAR_] names, with the prefix removed. *)
Fixpoint env_vars_update (env_vars : list (string * string)) (m : var_map) : var_map :=
  match env_vars with
  | [] => m
  | (k, v) :: r =>
      if startswith k "TF_VAR_"
      then env_vars_update r (vm_set (KStr (str_drop 7 k)) (VStr v, ("env:" ++ k)%string) m)
      else env_vars_update r m
  end.

(** A list of loaded files, applied in the order given. *)
Fixpoint vm_update_files (files_to_data : list (string * option value)) (m : var_map)
  : exn + var_map :=
  match files_to_data with
  | [] => inr m
  | (var_file, data) :: r =>
      match vm_update_data inr var_file data m with
      | inl e => inl e
      | inr m' => vm_update_files r m'
      end
  end.

(** [sorted(l, key=lambda x: x[0])] *)
Definition sort_by_path {A : Type} (l : list (string * A)) : list (string * A) :=
  sort (fun a b => String.leb (fst a) (fst b)) l.

(** [vars_files.index(p)] for a path of the list *)
Fixpoint index_of (p : string) (l : list string) : nat :=
  match l with
  | [] => 0
  | x :: r => if String.eqb p x then 0 else S (index_of p r)
  end.

(** [sorted(l, key=lambda x: vars_files.index(x[0]))] *)
Definition sort_by_index {A : Type} (vars_files : list string) (l : list (string * A))
  : list (string * A) :=
  sort (fun a b => (index_of (fst a) vars_files <=? index_of (fst b) vars_files)%nat) l.

Definition bind_exn {A B : Type} (x : exn + A) (f : A -> exn + B) : exn + B :=
  match x with
  | inl e => inl e
  | inr a => f a
  end.

(** ** The parser's state, and the monad of state and exceptions *)

(** [ModuleAddress]: [(file, module_index, module_call_name)] *)
Definition address : Type := string * nat * key.

Definition address_eqb (a b : address) : bool :=
  let '(f1, i1, n1) := a in
  let '(f2, i2, n2) := b in
  String.eqb f1 f2 && Nat.eqb i1 i2 && key_eqb n1 n2.

(** The mutable state of a [Parser] in flat mode
    ([enable_nested_modules] is false, its default).

    A payload is an object shared by every place that refers to it:
    [loaded_files_map] owns the payload parsed at a path (or [None]), and
    [out_definitions] maps a definition key to the path whose payload it
    holds, so that a [__resolved__] list attached through one key is seen
    through every other.  [module_address_map], [external_modules_source_map],
    [keys_to_remove] and [external_variables_data] are written and not read
    by the loader in flat mode; they are left out. *)
Record Parser : Type := {
  out_definitions : list (string * string);
  loaded_files_map : list (string * option value);
  out_parsing_errors : errors;
  _loaded_modules : list address;
  keys_referenced_as_modules : list string;
  _parsed_directories : list string
}.

Definition new_parser : Parser := {|
  out_definitions := []; loaded_files_map := []; out_parsing_errors := [];
  _loaded_modules := []; keys_referenced_as_modules := []; _parsed_directories := []
|}.

Definition set_out_definitions (f : list (string * string) -> list (string * string))
    (p : Parser) : Parser :=
  {| out_definitions := f (out_definitions p);
     loaded_files_map := loaded_files_map p;
     out_parsing_errors := out_parsing_errors p;
     _loaded_modules := _loaded_modules p;
     keys_referenced_as_modules := keys_referenced_as_modules p;
     _parsed_directories := _parsed_directories p |}.

Definition set_loaded_files_map
    (f : list (string * option value) -> list (string * option value)) (p : Parser) : Parser :=
  {| out_definitions := out_definitions p;
     loaded_files_map := f (loaded_files_map p);
     out_parsing_errors := out_parsing_errors p;
     _loaded_modules := _loaded_modules p;
     keys_referenced_as_modules := keys_referenced_as_modules p;
     _parsed_directories := _parsed_directories p |}.

Definition set_out_parsing_errors (f : errors -> errors) (p : Parser) : Parser :=
  {| out_definitions := out_definitions p;
     loaded_files_map := loaded_files_map p;
     out_parsing_errors := f (out_parsing_errors p);
     _loaded_modules := _loaded_modules p;
     keys_referenced_as_modules := keys_referenced_as_modules p;
     _parsed_directories := _parsed_directories p |}.

Definition set_loaded_modules (f : list address -> list address) (p : Parser) : Parser :=
  {| out_definitions := out_definitions p;
     loaded_files_map := loaded_files_map p;
     out_parsing_errors := out_parsing_errors p;
     _loaded_modules := f (_loaded_modules p);
     keys_referenced_as_modules := keys_referenced_as_modules p;
     _parsed_directories := _parsed_directories p |}.

Definition set_keys_referenced (f : list string -> list string) (p : Parser) : Parser :=
  {| out_definitions := out_definitions p;
     loaded_files_map := loaded_files_map p;
     out_parsing_errors := out_parsing_errors p;
     _loaded_modules := _loaded_modules p;
     keys_referenced_as_modules := f (keys_referenced_as_modules p);
     _parsed_directories := _parsed_directories p |}.

Definition set_parsed_directories (f : list string -> list string) (p : Parser) : Parser :=
  {| out_definitions := out_definitions p;
     loaded_files_map := loaded_files_map p;
     out_parsing_errors := out_parsing_errors p;
     _loaded_modules := _loaded_modules p;
     keys_referenced_as_modules := keys_referenced_as_modules p;
     _parsed_directories := f (_parsed_directories p) |}.

(** A computation on the parser: the state afterwards, and a result or the
    exception raised.  The state survives an exception, as in Python. *)
Definition M (A : Type) : Type := Parser -> Parser * (exn + A).

Definition ret {A : Type} (a : A) : M A := fun p => (p, inr a).

Definition bind {A B : Type} (m : M A) (f : A -> M B) : M B :=
  fun p =>
    match m p with
    | (p', inr a) => f a p'
    | (p', inl e) => (p', inl e)
    end.

Definition raise {A : Type} (e : exn) : M A := fun p => (p, inl e).

Definition lift {A : Type} (x : exn + A) : M A := fun p => (p, x).

Definition get_parser : M Parser := fun p => (p, inr p).

Definition modify (f : Parser -> Parser) : M unit := fun p => (f p, inr tt).

Declare Scope monad_scope.
Delimit Scope monad_scope with monad.
Notation "x <- m ;; k" := (bind m (fun x => k))
  (at level 61, m at next level, right associativity) : monad_scope.
Notation "m ;; k" := (bind m (fun _ => k))
  (at level 61, right associativity) : monad_scope.
Local Open Scope monad_scope.

(** [for x in l: body(x)] *)
Fixpoint for_each {X : Type} (l : list X) (body : X -> M unit) : M unit :=
  match l with
  | [] => ret tt
  | x :: r => body x ;; for_each r body
  end.

(** A loop that carries local variables. *)
Fixpoint for_fold {X S : Type} (l : list X) (s : S) (body : S -> X -> M S) : M S :=
  match l with
  | [] => ret s
  | x :: r => s' <- body s x ;; for_fold r s' body
  end.

(** ** Maps from strings *)

Fixpoint assoc {A : Type} (k : string) (m : list (string * A)) : option A :=
  match m with
  | [] => None
  | (k', a) :: r => if String.eqb k k' then Some a else assoc k r
  end.

(** [m[k] = a] *)
Fixpoint assoc_set {A : Type} (k : string) (a : A) (m : list (string * A)) : list (string * A) :=
  match m with
  | [] => [(k, a)]
  | (k', a') :: r => if String.eqb k k' then (k', a) :: r else (k', a') :: assoc_set k a r
  end.

(** [del m[k]] *)
Definition assoc_del {A : Type} (k : string) (m : list (string * A)) : list (string * A) :=
  filter (fun kv => negb (String.eqb k (fst kv))) m.

(** [s.add(x)] on a set of strings *)
Definition set_add (x : string) (s : list string) : list string :=
  if in_strings x s then s else s ++ [x].

(** The payload that a path owns, when it has one. *)
Definition heap_get (p : Parser) (oid : string) : option value :=
  match assoc oid (loaded_files_map p) with
  | Some (Some v) => Some v
  | _ => None
  end.

(** [out_definitions.get(key)] *)
Definition definition (p : Parser) (k : string) : option value :=
  match assoc k (out_definitions p) with
  | Some oid => heap_get p oid
  | None => None
  end.

(** The definition store as the caller reads it: key to payload. *)
Definition store (p : Parser) : list (string * value) :=
  flat_map (fun '(k, oid) =>
              match heap_get p oid with
              | Some v => [(k, v)]
              | None => []
              end) (out_definitions p).

(** ** [Parser._load_files] *)

(** The first loop: the files whose payload is cached and truthy, and the
    files to parse. *)
Fixpoint split_cached (p : Parser) (files : list DirEntry)
  : list (string * option value) * list DirEntry :=
  match files with
  | [] => ([], [])
  | file :: r =>
      let '(cached, to_parse) := split_cached p r in
      match heap_get p (path file) with
      | Some v =>
          if truthy v then ((path file, Some v) :: cached, to_parse)
          else (cached, file :: to_parse)
      | None => (cached, file :: to_parse)
      end
  end.

(** The second loop, over the results of [_load_file]. *)
Fixpoint record_results (dec : Decoders) (to_parse : list DirEntry) (p : Parser)
  : list (string * option value) * Parser :=
  match to_parse with
  | [] => ([], p)
  | file :: r =>
      let '(result, parsing_errors) := _load_or_die_quietly dec (path file) [] true in
      let p1 :=
        set_out_parsing_errors
          (fun errs => fold_left (fun acc '(f, e) => errors_set f e acc) parsing_errors errs) p in
      let p2 :=
        match assoc (path file) (loaded_files_map p1) with
        | Some _ => p1
        | None => set_loaded_files_map (fun m => m ++ [(path file, result)]) p1
        end in
      let '(rest, p3) := record_results dec r p2 in
      ((path file, result) :: rest, p3)
  end.

Definition _load_files (w : World) (files : list DirEntry) : M (list (string * option value)) :=
  fun p =>
    let '(cached, to_parse) := split_cached p files in
    let '(parsed, p') := record_results (decoders w) to_parse p in
    (p', inr (cached ++ parsed)).

(** ** Stages 1 and 2 of [Parser._internal_dir_load] *)

(** The loop over the sorted [files_to_data]: the file enters the store
    under its path, then its variable defaults are read. *)
Definition register_file (m : var_map) (fd : string * option value) : M var_map :=
  let '(file, data) := fd in
  match data with
  | Some v =>
      if truthy v then
        modify (set_out_definitions (assoc_set file file)) ;;
        lift (file_defaults file v m)
      else ret m
  | None => ret m
  end.

(** [_load_or_die_quietly(file, self.out_parsing_errors, clean_definitions)] *)
Definition load_var_file (w : World) (file : DirEntry) (clean_definitions : bool)
  : M (option value) :=
  fun p =>
    let '(data, errs) :=
      _load_or_die_quietly (decoders w) (path file) (out_parsing_errors p) clean_definitions in
    (set_out_parsing_errors (fun _ => errs) p, inr data).

Definition truthy_list {A : Type} (l : option (list A)) : bool :=
  match l with
  | Some (_ :: _) => true
  | _ => false
  end.

(** Stages 1 and 2: the directory is listed, its resource files are loaded
    into the store, and [var_value_and_file_map] is computed. *)
Definition load_dir_files (w : World) (directory : string)
    (env : list (string * string)) (given_specified_vars : option dict)
    (vars_files excluded_paths : option (list string)) : M var_map :=
  entries <- lift (scandir w directory) ;;
  let dir_contents :=
    if truthy_list excluded_paths || IGNORE_HIDDEN_DIRECTORY_ENV w
    then filter_ignored_paths w directory entries excluded_paths
    else entries in
  let sc := scan_directory vars_files dir_contents in
  files_to_data <- _load_files w (tf_files_to_load sc) ;;
  m1 <- for_fold (sort_by_path files_to_data) [] register_file ;;
  let m2 := env_vars_update env m1 in
  m3 <- match hcl_tfvars sc with
        | Some file =>
            data <- load_var_file w file false ;;
            lift (vm_update_data _safe_index0 (path file) data m2)
        | None => ret m2
        end ;;
  m4 <- match json_tfvars sc with
        | Some file =>
            data <- load_var_file w file true ;;
            lift (vm_update_data inr (path file) data m3)
        | None => ret m3
        end ;;
  auto_var_files_to_data <- _load_files w (auto_vars_files sc) ;;
  m5 <- lift (vm_update_files (sort_by_path auto_var_files_to_data) m4) ;;
  explicit_var_files_to_data <- _load_files w (explicit_var_files sc) ;;
  m6 <- lift (vm_update_files
                (sort_by_index (match vars_files with Some l => l | None => [] end)
                               explicit_var_files_to_data) m5) ;;
  match given_specified_vars with
  | Some (kv :: r) => lift (vm_update inr "manual specification" (kv :: r) m6)
  | _ => ret m6
  end.

(** ** Stage 4: [Parser._load_modules] *)

Definition RESOLVED_MODULE_ENTRY_NAME : string := "__resolved__".

(** Decimal digits of a number, as [str(n)] gives them. *)
Definition digit_char (n : nat) : ascii := ascii_of_nat (48 + n).

Fixpoint decimal_digits (fuel n : nat) (acc : string) : string :=
  match fuel with
  | 0 => acc
  | S fuel' =>
      let acc' := String (digit_char (n mod 10)) acc in
      if (n <? 10)%nat then acc' else decimal_digits fuel' (n / 10) acc'
  end.

Definition str_of_nat (n : nat) : string := decimal_digits (S n) n EmptyString.

(** Modelled from the spec: [get_tf_definition_key_from_module_dependency]
    belongs to [checkov.common.util.parser_utils], which is not part of the
    sources; in flat mode the specification gives the key as
    [<key>[<referrer_file>#<module_index>]]. *)
Definition get_tf_definition_key_from_module_dependency
    (k file : string) (module_index : nat) : string :=
  k ++ "[" ++ file ++ "#" ++ str_of_nat module_index ++ "]".

(** [_remove_module_dependency_in_path] *)
Definition _remove_module_dependency_in_path (w : World) (p : string) : string :=
  re_sub_resolved w p.

(** [{k: v[0] if isinstance(v, list) else v for k, v in module_call_data.items()
      if k != "source" and k != "version"}] *)
Fixpoint module_specified_vars (module_call_data : dict) : exn + dict :=
  match module_call_data with
  | [] => inr []
  | (k, v) :: r =>
      if key_eqb k (KStr "source") || key_eqb k (KStr "version")
      then module_specified_vars r
      else
        match v with
        | VList [] => inl IndexError
        | VList (x :: _) => bind_exn (module_specified_vars r) (fun r' => inr ((k, x) :: r'))
        | _ => bind_exn (module_specified_vars r) (fun r' => inr ((k, v) :: r'))
        end
  end.

(** [file_data["module"][module_index][module_call_name]], read in the
    payload as it is now. *)
Definition call_data_of (file_data : value) (module_index : nat) (module_call_name : key)
  : option value :=
  match file_data with
  | VDict d =>
      match dict_get (KStr "module") d with
      | Some (VList module_calls) =>
          match nth_error module_calls module_index with
          | Some (VDict module_call) => dict_get module_call_name module_call
          | _ => None
          end
      | _ => None
      end
  | _ => None
  end.

Fixpoint list_update {A : Type} (n : nat) (f : A -> A) (l : list A) : list A :=
  match l, n with
  | [], _ => []
  | x :: r, 0 => f x :: r
  | x :: r, S n' => x :: list_update n' f r
  end.

Definition dict_update (k : key) (f : value -> value) (d : dict) : dict :=
  map (fun '(k', v) => if key_eqb k k' then (k', f v) else (k', v)) d.

(** [module_call_data[RESOLVED_MODULE_ENTRY_NAME] = l], written through
    [file_data["module"][module_index][module_call_name]]. *)
Definition set_resolved (module_index : nat) (module_call_name : key) (l : list value)
    (file_data : value) : value :=
  match file_data with
  | VDict d =>
      VDict (dict_update (KStr "module") (fun module_calls =>
        match module_calls with
        | VList calls =>
            VList (list_update module_index (fun module_call =>
              match module_call with
              | VDict call =>
                  VDict (dict_update module_call_name (fun module_call_data =>
                    match module_call_data with
                    | VDict data =>
                        VDict (dict_set (KStr RESOLVED_MODULE_ENTRY_NAME) (VList l) data)
                    | _ => module_call_data
                    end) call)
              | _ => module_call
              end) calls)
        | _ => module_calls
        end) d)
  | _ => file_data
  end.

Definition heap_update (oid : string) (f : value -> value) (p : Parser) : Parser :=
  match heap_get p oid with
  | Some v => set_loaded_files_map (assoc_set oid (Some (f v))) p
  | None => p
  end.

(** [new_key not in resolved_loc_list] is false when an element equals the
    string [new_key]. *)
Definition str_in (s : string) (l : list value) : bool :=
  existsb (fun v => match v with VStr x => String.eqb s x | _ => false end) l.

(** [if new_key not in resolved_loc_list: resolved_loc_list.append(new_key)] *)
Definition append_new (l : list value) (new_key : string) : list value :=
  if str_in new_key l then l else l ++ [VStr new_key].

(** One turn of the loop over [keys]: the local [module_definitions] and
    [resolved_loc_list] are carried along. *)
Definition rewrite_key (file : string) (module_index : nat)
    (s : list (string * string) * list value) (k : string)
  : M (list (string * string) * list value) :=
  let '(module_definitions, resolved_loc_list) := s in
  if endswith k "]" || endswith file "]" then ret s
  else
    modify (set_keys_referenced (set_add k)) ;;
    let new_key := get_tf_definition_key_from_module_dependency k file module_index in
    let module_definitions' :=
      match assoc k module_definitions with
      | Some oid => assoc_del k (assoc_set new_key oid module_definitions)
      | None => module_definitions
      end in
    modify (set_out_definitions (assoc_del k)) ;;
    ret (module_definitions', append_new resolved_loc_list new_key).

(** [resolved_loc_list.sort()]: the list afterwards, and the exception
    raised if the elements cannot be compared. *)
Definition sort_resolved (w : World) (l : list value) : list value * option exn :=
  if forallb is_str l then (map VStr (sort String.leb (str_values l)), None)
  else
    match l with
    | [] | [_] => (l, None)
    | _ => sort_mixed w l
    end.

(** [deep_merge.merge(a, b)] on two maps from keys to payloads: a new key
    is added; under a key of both the payloads are merged into the first. *)
Fixpoint merge_definitions (w : World) (a b : list (string * string))
  : M (list (string * string)) :=
  match b with
  | [] => ret a
  | (k, oid_b) :: r =>
      match assoc k a with
      | Some oid_a =>
          p <- get_parser ;;
          match heap_get p oid_b with
          | Some vb => modify (heap_update oid_a (fun va => deep_merge_value w va vb))
          | None => ret tt
          end ;;
          merge_definitions w a r
      | None => merge_definitions w (a ++ [(k, oid_b)]) r
      end
  end.

(** [try: m  except Exception: ...], the local variables keeping the values
    [dflt] they had. *)
Definition try_or {A : Type} (m : M A) (dflt : A) : M A :=
  fun p =>
    match m p with
    | (p', inl _) => (p', inr dflt)
    | r => r
    end.

(** The body of the [try] statement for one module call.  [s] holds the
    locals [all_module_definitions] and [skipped_a_module]; [rec] is
    [self._internal_dir_load] on the content of the module.  A
    [__resolved__] entry that is neither absent, [None] nor a list (the HCL
    decoder wraps every attribute in a list) fails in the loop over the keys
    or at the sort; the model raises before the loop. *)
Definition load_module_content (rec : string -> dict -> M unit) (w : World)
    (root_dir file oid : string) (module_index : nat) (module_call_name : key)
    (specified_vars : dict) (source : string) (version : value)
    (s : list (string * string) * bool) : M (list (string * string) * bool) :=
  content <- lift (registry_load w root_dir source version) ;;
  if negb (loaded content) then ret s
  else
    rec (content_path content) specified_vars ;;
    p <- get_parser ;;
    let module_definitions :=
      filter (fun kv => String.eqb (dirname (fst kv)) (content_path content))
             (out_definitions p) in
    match module_definitions with
    | [] => ret s
    | _ =>
        resolved0 <-
          match heap_get p oid with
          | Some file_data =>
              match call_data_of file_data module_index module_call_name with
              | Some (VDict module_call_data) =>
                  match dict_get (KStr RESOLVED_MODULE_ENTRY_NAME) module_call_data with
                  | None | Some VNone => ret []
                  | Some (VList l) => ret l
                  | Some _ => raise TypeError
                  end
              | _ => ret []
              end
          | None => ret []
          end ;;
        r <- for_fold (map fst module_definitions) (module_definitions, resolved0)
                      (rewrite_key file module_index) ;;
        let '(module_definitions', resolved1) := r in
        let '(resolved2, failure) := sort_resolved w resolved1 in
        modify (heap_update oid (set_resolved module_index module_call_name resolved2)) ;;
        match failure with
        | Some e => raise e
        | None =>
            all_module_definitions <-
              match fst s with
              | [] => ret module_definitions'
              | a => merge_definitions w a module_definitions'
              end ;;
            ret (all_module_definitions, snd s)
        end
    end.

(** One module call [(file, module_index, module_call_name)]. *)
Definition load_module_call (rec : string -> dict -> M unit) (w : World)
    (root_dir : string) (ignore_unresolved_params : bool)
    (file oid : string) (module_index : nat)
    (s : list (string * string) * bool) (module_call_name : key)
  : M (list (string * string) * bool) :=
  p <- get_parser ;;
  match heap_get p oid with
  | Some file_data =>
      match call_data_of file_data module_index module_call_name with
      | Some (VDict module_call_data) =>
          let module_address := (file, module_index, module_call_name) in
          if existsb (address_eqb module_address) (_loaded_modules p) then ret s
          else
            specified_vars <- lift (module_specified_vars module_call_data) ;;
            if gate_defers (simple_var w) ignore_unresolved_params specified_vars
            then ret (fst s, true)
            else
              modify (set_loaded_modules (fun l => l ++ [module_address])) ;;
              match dict_get (KStr "source") module_call_data with
              | Some (VList (VStr source :: _)) =>
                  let source' :=
                    if startswith source "./" || startswith source "../"
                    then normpath w (path_join
                                       (dirname (_remove_module_dependency_in_path w file))
                                       source)
                    else source in
                  let version :=
                    match dict_get (KStr "version") module_call_data with
                    | None => VStr "latest"
                    | Some (VList (x :: _)) => x
                    | Some v => v
                    end in
                  try_or (load_module_content rec w root_dir file oid module_index
                            module_call_name specified_vars source' version s) s
              | _ => ret s
              end
      | _ => ret s
      end
  | None => ret s
  end.

Fixpoint enumerate_from {A : Type} (n : nat) (l : list A) : list (nat * A) :=
  match l with
  | [] => []
  | x :: r => (n, x) :: enumerate_from (S n) r
  end.

(** The module calls of one file of the store. *)
Definition load_file_modules (rec : string -> dict -> M unit) (w : World)
    (root_dir : string) (ignore_unresolved_params : bool)
    (s : list (string * string) * bool) (file : string)
  : M (list (string * string) * bool) :=
  if negb (String.eqb (dirname file) root_dir) then ret s
  else if endswith file "]" then ret s
  else
    p <- get_parser ;;
    match assoc file (out_definitions p) with
    | None => ret s
    | Some oid =>
        match heap_get p oid with
        | None => ret s
        | Some (VDict d) =>
            match dict_get (KStr "module") d with
            | Some (VList (c :: cs)) =>
                for_fold (enumerate_from 0 (c :: cs)) s (fun s' ic =>
                  match snd ic with
                  | VDict module_call =>
                      for_fold (map fst module_call) s'
                        (load_module_call rec w root_dir ignore_unresolved_params
                                          file oid (fst ic))
                  | _ => ret s'
                  end)
            | _ => ret s
            end
        | Some _ => raise AttributeError
        end
    end.

(** [Parser._load_modules]: whether a module was skipped for unresolved
    parameters. *)
Definition _load_modules (rec : string -> dict -> M unit) (w : World)
    (root_dir : string) (ignore_unresolved_params : bool) : M bool :=
  p <- get_parser ;;
  s <- for_fold (map fst (out_definitions p)) ([], false)
                (load_file_modules rec w root_dir ignore_unresolved_params) ;;
  match fst s with
  | [] => ret tt
  | all_module_definitions =>
      p' <- get_parser ;;
      merged <- merge_definitions w (out_definitions p') all_module_definitions ;;
      modify (set_out_definitions (fun _ => merged))
  end ;;
  ret (snd s).

(** ** The module-load loop, and the entry point *)

(** The loop [for i in range(0, 10)] with [passes] turns left: for each
    pass run, the value of [force_final_module_load] it ran with and the
    [has_more_modules] it returned. *)
Fixpoint module_load_loop (passes : nat) (force_final_module_load : bool)
    (load : bool -> M bool) : M (list (bool * bool)) :=
  match passes with
  | 0 => ret []
  | S n =>
      has_more_modules <- load force_final_module_load ;;
      if negb has_more_modules then ret [(force_final_module_load, has_more_modules)]
      else
        rest <- module_load_loop n true load ;;
        ret ((force_final_module_load, has_more_modules) :: rest)
  end.

(** The passes of a run of the loop: none follows a pass that skipped
    nothing, and each pass after the first is forced. *)
Fixpoint loop_trace_ok (first : bool) (trace : list (bool * bool)) : Prop :=
  match trace with
  | [] => True
  | (force, has_more) :: rest =>
      force = first
      /\ match rest with
         | [] => True
         | _ => has_more = true
         end
      /\ loop_trace_ok true rest
  end.

(** [Parser._internal_dir_load].  [depth] is the number of nested calls the
    interpreter allows: at zero the call raises [RecursionError].  The
    result is the trace of the module-load loop. *)
Fixpoint _internal_dir_load (depth : nat) (w : World) (env : list (string * string))
    (directory : string) (given_specified_vars : option dict)
    (vars_files excluded_paths : option (list string)) : M (list (bool * bool)) :=
  match depth with
  | 0 => raise RecursionError
  | S d =>
      load_dir_files w directory env given_specified_vars vars_files excluded_paths ;;
      module_load_loop 10 false
        (_load_modules
           (fun content_dir specified =>
              _internal_dir_load d w env content_dir (Some specified) None None ;; ret tt)
           w directory)
  end.

(** [Parser._check_process_dir] *)
Definition _check_process_dir (directory : string) : M bool :=
  p <- get_parser ;;
  if in_strings directory (_parsed_directories p) then ret false
  else modify (set_parsed_directories (fun l => l ++ [directory])) ;; ret true.

(** [Parser.parse_directory] on the store held by the parser. *)
Definition parse_directory (depth : nat) (w : World) (env : list (string * string))
    (directory : string) (vars_files excluded_paths : option (list string)) : M unit :=
  modify (set_parsed_directories (fun _ => [])) ;;
  modify (set_keys_referenced (fun _ => [])) ;;
  for_each (walk w directory) (fun sub_dir =>
    process <- _check_process_dir (abspath w sub_dir) ;;
    if process
    then _internal_dir_load depth w env sub_dir None vars_files excluded_paths ;; ret tt
    else ret tt) ;;
  p <- get_parser ;;
  modify (set_out_definitions (fun defs =>
    fold_left (fun acc k => assoc_del k acc) (keys_referenced_as_modules p) defs)).

(** ** The [__resolved__] lists of a payload *)

Fixpoint nodupb (l : list string) : bool :=
  match l with
  | [] => true
  | x :: r => negb (in_strings x r) && nodupb r
  end.

(** A list of definition keys, sorted ascending and without duplicates. *)
Definition resolved_okb (l : list value) : bool :=
  forallb is_str l && sortedb String.leb (str_values l) && nodupb (str_values l).

(** The [__resolved__] list of a module call, when it has one. *)
Definition call_okb (module_call_data : value) : bool :=
  match module_call_data with
  | VDict data =>
      match dict_get (KStr RESOLVED_MODULE_ENTRY_NAME) data with
      | Some (VList l) => resolved_okb l
      | _ => true
      end
  | _ => true
  end.

(** Every [module[index][name]["__resolved__"]] of a payload. *)
Definition payload_okb (file_data : value) : bool :=
  match file_data with
  | VDict d =>
      match dict_get (KStr "module") d with
      | Some (VList module_calls) =>
          forallb (fun module_call =>
                     match module_call with
                     | VDict c => forallb (fun kv => call_okb (snd kv)) c
                     | _ => true
                     end) module_calls
      | _ => true
      end
  | _ => true
  end.

(** Every payload that the parser holds. *)
Definition heap_ok (p : Parser) : Prop :=
  forall oid v, heap_get p oid = Some v -> payload_okb v = true.

(** The files as decoded carry no [__resolved__] list out of order (they
    carry none, usually). *)
Definition decoded_ok (w : World) : Prop :=
  forall f v, fst (_load_or_die_quietly (decoders w) f [] true) = Some v ->
              payload_okb v = true.

(** Merging two payloads stored under one key keeps the lists in order. *)
Definition merge_ok (w : World) : Prop :=
  forall a b, payload_okb a = true -> payload_okb b = true ->
              payload_okb (deep_merge_value w a b) = true.

(** The list that the loop over the keys and the sort leave for one module
    call, from the list [l] as it was and the new keys in the order met. *)
Definition resolved_after (l : list value) (new_keys : list string) : list value :=
  map VStr (sort String.leb (str_values (fold_left append_new new_keys l))).

(** [m] keeps the invariant [I] of the state, raising or not, and returns a
    result that satisfies [Q]. *)
Definition triple {A : Type} (I : Parser -> Prop) (m : M A) (Q : A -> Prop) : Prop :=
  forall p p' r, I p -> m p = (p', r) ->
                 I p' /\ match r with inr a => Q a | inl _ => True end.

(** A list of strings without duplicates, in any order. *)
Definition strs_okb (l : list value) : bool :=
  forallb is_str l && nodupb (str_values l).

(** ** Scenarios *)

Definition file_entry (directory n : string) : DirEntry :=
  {| name := n; path := path_join directory n; is_file := inr true |}.

Definition dir_entry (directory n : string) : DirEntry :=
  {| name := n; path := path_join directory n; is_file := inr false |}.

(** A world made of a listing of directories, of the decoded contents of
    files, and of the directories that hold modules.  References are the
    strings that start with [${]; paths are written in normal form, but for
    [/r/./mod]. *)
Definition world_of (dirs : list (string * list DirEntry))
    (hcl_files : list (string * hcl_payload)) (json_files : list (string * value))
    (module_dirs : list string) : World := {|
  scandir := fun d => match assoc d dirs with Some l => inr l | None => inl OSError end;
  decoders := {|
    json_load := fun f => match assoc f json_files with Some v => inr v | None => inl DecodeError end;
    hcl2_load := fun f => match assoc f hcl_files with Some v => inr v | None => inl DecodeError end
  |};
  simple_var := fun s => startswith s "${";
  registry_load := fun _ source _ =>
    if in_strings source module_dirs
    then inr {| loaded := true; content_path := source |}
    else inl LoaderError;
  normpath := fun f => if String.eqb f "/r/./mod" then "/r/mod" else f;
  re_sub_resolved := fun f => f;
  deep_merge_value := fun a _ => a;
  sort_mixed := fun l => (l, Some TypeError);
  filter_ignored_paths := fun _ l _ => l;
  IGNORE_HIDDEN_DIRECTORY_ENV := false;
  walk := fun _ => map fst dirs;
  abspath := fun f => f
|}.

(** [module "m" { source = "./mod"; x = var.unknown }] in [/r/main.tf], and
    a resource and a variable in [/r/mod/main.tf]. *)
Definition unresolved_main_tf : hcl_payload :=
  [("module", [VDict [(KStr "m", VDict [(KStr "source", VList [VStr "./mod"]);
                                       (KStr "x", VList [VStr "${var.unknown}"])])]])].

Definition mod_main_tf : hcl_payload :=
  [("resource",
    [VDict [(KStr "t", VDict [(KStr "n", VDict [(KStr "v", VList [VStr "${var.x}"])])])]]);
   ("variable", [VDict [(KStr "x", VDict [])]])].

Definition unresolved_world : World :=
  world_of [("/r", [file_entry "/r" "main.tf"; dir_entry "/r" "mod"]);
            ("/r/mod", [file_entry "/r/mod" "main.tf"])]
           [("/r/main.tf", unresolved_main_tf); ("/r/mod/main.tf", mod_main_tf)]
           [] ["/r/mod"].

(** The state once [/r] has gone through stages 1 and 2. *)
Definition unresolved_after_scan : Parser :=
  fst (load_dir_files unresolved_world "/r" [] None None None new_parser).

(** A block keyed by U+00E9, a letter outside the ASCII grammar. *)
Definition e_acute : string := String (ascii_of_nat 233) EmptyString.

(** The same text behind both decoders: a [resource] list holding an empty
    block and a block with two names. *)
Definition two_bad_blocks : list value :=
  [VDict []; VDict [(KStr "a", VDict []); (KStr "b", VDict [])]].

Definition decoders_bad_blocks : Decoders := {|
  json_load := fun _ => inr (VDict [(KStr "resource", VList two_bad_blocks)]);
  hcl2_load := fun _ => inr [("resource", two_bad_blocks)]
|}.


(** A directory whose only file is [main.tf.json], a JSON document with
    one resource. *)
Definition tf_json_payload : value :=
  VDict [(KStr "resource",
          VList [VDict [(KStr "aws_s3_bucket",
                         VDict [(KStr "b", VDict [(KStr "bucket", VStr "x")])])]])].

Definition tf_json_world : World :=
  world_of [("/r", [file_entry "/r" "main.tf.json"])] []
           [("/r/main.tf.json", tf_json_payload)] [].

(** [variable "v" { default = "d" }] in [main.tf], [v = "t"] in
    [terraform.tfvars] and [v = "a"] in [a.auto.tfvars], as the HCL decoder
    gives them: each attribute value wrapped in a list. *)
Definition precedence_world : World :=
  world_of [("/r", [file_entry "/r" "a.auto.tfvars"; file_entry "/r" "main.tf";
                    file_entry "/r" "terraform.tfvars"])]
           [("/r/main.tf",
             [("variable", [VDict [(KStr "v", VDict [(KStr "default", VList [VStr "d"])])]])]);
            ("/r/terraform.tfvars", [("v", [VStr "t"])]);
            ("/r/a.auto.tfvars", [("v", [VStr "a"])])]
           [] [].

(** The same directory without [a.auto.tfvars]. *)
Definition tfvars_world : World :=
  world_of [("/r", [file_entry "/r" "main.tf"; file_entry "/r" "terraform.tfvars"])]
           [("/r/main.tf",
             [("variable", [VDict [(KStr "v", VDict [(KStr "default", VList [VStr "d"])])]])]);
            ("/r/terraform.tfvars", [("v", [VStr "t"])])]
           [] [].

(** A directory with a file that does not decode, and a file that calls a
    module the loader fails on. *)
Definition failures_world : World :=
  world_of [("/r", [file_entry "/r" "broken.tf"; file_entry "/r" "main.tf"])]
           [("/r/main.tf",
             [("module", [VDict [(KStr "m", VDict [(KStr "source", VList [VStr "git::missing"])])]]);
              ("resource", [VDict [(KStr "t", VDict [(KStr "n", VDict [])])]])])]
           [] [].

(** A directory whose [terraform.tfvars.json] holds the JSON array [[1]]. *)
Definition tfvars_array_world : World :=
  world_of [("/r", [file_entry "/r" "main.tf"; file_entry "/r" "terraform.tfvars.json"])]
           [("/r/main.tf", [("resource", [VDict [(KStr "t", VDict [(KStr "n", VDict [])])]])])]
           [("/r/terraform.tfvars.json", VList [VInt 1])] [].

(** ** The shape of a normalised payload *)

(** What the normaliser leaves: no set, no string ["true"] or ["false"] and,
    for the attribute of a mapping, no [Tree]; the attribute [alias] is
    exempt. *)
Fixpoint canonical (v : value) : bool :=
  match v with
  | VSet _ => false
  | VStr s => negb (String.eqb s "true" || String.eqb s "false")
  | VList l => forallb canonical l
  | VDict d =>
      forallb (fun kv =>
                 let '(k, x) := kv in
                 key_eqb k (KStr "alias")
                 || match x with
                    | VTree _ => false
                    | _ => canonical x
                    end) d
  | _ => true
  end.

(** ** [Parser.parse_file] *)

(** [Parser._clean_parser_types] on a value: [conf.keys()] needs a mapping,
    unless the value is falsy and returned at once. *)
Definition _clean_parser_types_value (conf : value) : exn + value :=
  if negb (truthy conf) then inr conf
  else
    match conf with
    | VDict d => inr (VDict (_clean_parser_types d))
    | _ => inl AttributeError
    end.

(** [_load_or_die_quietly(file, parsing_errors)] for a sink that may be
    [None]: storing the exception in [None] raises [TypeError] from the
    handler. *)
Definition load_with_optional_sink (dec : Decoders) (file : string)
    (parsing_errors : option errors) : (exn + option value) * option errors :=
  match parsing_errors with
  | Some errs =>
      let '(r, errs') := _load_or_die_quietly dec file errs true in
      (inr r, Some errs')
  | None =>
      match _load_or_die_quietly dec file [] true with
      | (Some v, _) => (inr (Some v), None)
      | (None, _) => (inl TypeError, None)
      end
  end.

(** [Parser.parse_file(file, parsing_errors)]: what it returns or raises,
    and the sink afterwards.  [serialize] is [_serialize_definitions], the
    JSON encoding and decoding of the payload with [CustomJSONEncoder]. *)
Definition parse_file (dec : Decoders) (serialize : value -> exn + value)
    (file : string) (parsing_errors : option errors)
  : (exn + option value) * option errors :=
  if endswith file ".tf" || endswith file ".tf.json" || endswith file ".hcl" then
    match load_with_optional_sink dec file parsing_errors with
    | (inl e, sink) => (inl e, sink)
    | (inr None, sink) => (inr None, sink)
    | (inr (Some parse_result), sink) =>
        if truthy parse_result then
          match serialize parse_result with
          | inl e => (inl e, sink)
          | inr serialized =>
              match _clean_parser_types_value serialized with
              | inl e => (inl e, sink)
              | inr cleaned => (inr (Some cleaned), sink)
              end
          end
        else (inr None, sink)
    end
  else (inr None, parsing_errors).

(** ** Paths *)

(** No ['/'] among the characters. *)
Definition no_slash (l : list ascii) : Prop :=
  Forall (fun c => Ascii.eqb c slash = false) l.

(** ** File discovery *)

Definition is_tfvars_name (file : DirEntry) : bool :=
  String.eqb (name file) "terraform.tfvars.json" || String.eqb (name file) "terraform.tfvars".

(** What stage 1 takes for a [*.auto.tfvars] or [*.auto.tfvars.json] file. *)
Definition is_auto_var_file (file : DirEntry) : bool :=
  match is_file file with
  | inr true =>
      negb (is_tfvars_name file)
      && (endswith (name file) ".auto.tfvars.json" || endswith (name file) ".auto.tfvars")
  | _ => false
  end.

(** What stage 1 takes for one of the explicit var-files. *)
Definition is_explicit_file (vars_files : option (list string)) (file : DirEntry) : bool :=
  match is_file file with
  | inr true =>
      negb (is_tfvars_name file)
      && negb (endswith (name file) ".auto.tfvars.json" || endswith (name file) ".auto.tfvars")
      && is_explicit_var_file vars_files (path file)
  | _ => false
  end.

(** ** Parameters of a module call *)

(** Every string in a value: the strings themselves, the elements of lists
    and sets, the keys and the values of mappings. *)
Fixpoint strings_of (v : value) : list string :=
  match v with
  | VStr s => [s]
  | VList l => flat_map strings_of l
  | VSet l => flat_map strings_of l
  | VDict d =>
      flat_map (fun kv =>
                  let '(k, x) := kv in
                  strings_of x ++ match k with KStr s => [s] | KInt _ => [] end) d
  | _ => []
  end.

(** [v[0] if isinstance(v, list) else v], for a list that is not empty *)
Definition unwrap (v : value) : value :=
  match v with
  | VList (x :: _) => x
  | _ => v
  end.

(** ** Levels of files: [Parser.get_next_vertices] *)

(** [sub in s] on strings *)
Definition contains (sub s : string) : bool :=
  match String.index 0 sub s with
  | Some _ => true
  | None => false
  end.

(** [key.split(sep)[0]]: what stands before the first occurrence of [sep],
    the whole of [key] when there is none; [None] is the [ValueError] of an
    empty separator. *)
Definition split_head (sep key : string) : option string :=
  if String.eqb sep "" then None
  else Some match String.index 0 sep key with
            | Some i => substring 0 i key
            | None => key
            end.

(** [found] after the inner loop over [evaluated_files] *)
Definition found_in (evaluated_files : list string) (key : string) : bool :=
  existsb (fun eval_key => contains eval_key key) evaluated_files.

(** The loop over [unevaluated_files]; the state is
    [(next_level, unevaluated, do_not_eval_yet)]. *)
Fixpoint classify (PREFIX : string) (evaluated_files unevaluated_files : list string)
    (st : list string * list string * list string)
  : option (list string * list string * list string) :=
  match unevaluated_files with
  | [] => Some st
  | key :: r =>
      let '(next_level, unevaluated, do_not_eval_yet) := st in
      if negb (found_in evaluated_files key) then
        match split_head PREFIX key with
        | None => None
        | Some h =>
            classify PREFIX evaluated_files r
                     (next_level, unevaluated ++ [key], do_not_eval_yet ++ [h])
        end
      else classify PREFIX evaluated_files r (next_level ++ [key], unevaluated, do_not_eval_yet)
  end.

(** [list(filter(lambda k: k.split(PREFIX)[0] in do_not_eval_yet, next_level))] *)
Fixpoint move_to_uneval (PREFIX : string) (do_not_eval_yet next_level : list string)
  : option (list string) :=
  match next_level with
  | [] => Some []
  | k :: r =>
      match split_head PREFIX k with
      | None => None
      | Some h =>
          match move_to_uneval PREFIX do_not_eval_yet r with
          | None => None
          | Some l => Some (if in_strings h do_not_eval_yet then k :: l else l)
          end
      end
  end.

(** [l.remove(k)]: the first occurrence goes; [None] is the [ValueError] of
    a list without [k]. *)
Fixpoint remove_first (k : string) (l : list string) : option (list string) :=
  match l with
  | [] => None
  | x :: r =>
      if String.eqb x k then Some r
      else match remove_first k r with
           | None => None
           | Some r' => Some (x :: r')
           end
  end.

(** [for k in move_to_uneval: next_level.remove(k); unevaluated.append(k)] *)
Fixpoint move_loop (move next_level unevaluated : list string)
  : option (list string * list string) :=
  match move with
  | [] => Some (next_level, unevaluated)
  | k :: m =>
      match remove_first k next_level with
      | None => None
      | Some next_level' => move_loop m next_level' (unevaluated ++ [k])
      end
  end.

(** [Parser.get_next_vertices]; [PREFIX] is
    [TERRAFORM_NESTED_MODULE_PATH_PREFIX], a constant of another module. *)
Definition get_next_vertices (PREFIX : string) (evaluated_files unevaluated_files : list string)
  : option (list string * list string) :=
  match classify PREFIX evaluated_files unevaluated_files ([], [], []) with
  | None => None
  | Some (next_level, unevaluated, do_not_eval_yet) =>
      match move_to_uneval PREFIX do_not_eval_yet next_level with
      | None => None
      | Some move => move_loop move next_level unevaluated
      end
  end.

(** The part of a key before [PREFIX], for a [PREFIX] that is not empty. *)
Definition key_head (PREFIX key : string) : string :=
  match String.index 0 PREFIX key with
  | Some i => substring 0 i key
  | None => key
  end.

(** A key is held back when its head is the head of a key in which no
    evaluated file occurs. *)
Definition held_back (PREFIX : string) (evaluated_files unevaluated_files : list string)
    (key : string) : bool :=
  in_strings (key_head PREFIX key)
             (map (key_head PREFIX)
                  (filter (fun k => negb (found_in evaluated_files k)) unevaluated_files)).

(** ** [Parser.get_dirname] and the cache of loaded files *)

(** [Parser.get_dirname], on the [dirname_cache] it reads and writes: the
    name returned and the cache afterwards.  A cached name that is empty is
    falsy, and computed again. *)
Definition get_dirname (dirname_cache : list (string * string)) (path : string)
  : string * list (string * string) :=
  match assoc path dirname_cache with
  | Some dirname_path =>
      if negb (String.eqb dirname_path "") then (dirname_path, dirname_cache)
      else (dirname path, assoc_set path (dirname path) dirname_cache)
  | None => (dirname path, assoc_set path (dirname path) dirname_cache)
  end.

(** Every name of the cache is the directory of its path. *)
Definition dirname_cache_ok (dirname_cache : list (string * string)) : Prop :=
  forall path d, assoc path dirname_cache = Some d -> d = dirname path.

(** [data = self.loaded_files_map.get(file.path)] is truthy *)
Definition cache_hit (p : Parser) (file : DirEntry) : bool :=
  match heap_get p (path file) with
  | Some v => truthy v
  | None => false
  end.
(* ================================================================= *)
(** * Theorems *)
(* ================================================================= *)

(** ** Sorting *)

Section SortFacts.
Context {A : Type} (leb : A -> A -> bool).
Hypothesis leb_total : forall x y, leb x y = false -> leb y x = true.

Lemma insert_perm (x : A) (l : list A) : Permutation (x :: l) (insert leb x l).
Proof.
  induction l as [|y l IH]; simpl; [reflexivity|].
  destruct (leb x y); [reflexivity|].
  rewrite perm_swap. now constructor.
Qed.

Lemma sort_perm (l : list A) : Permutation l (sort leb l).
Proof.
  induction l as [|x l IH]; simpl; [constructor|].
  rewrite <- insert_perm. now constructor.
Qed.

Lemma sort_In (x : A) (l : list A) : In x (sort leb l) <-> In x l.
Proof.
  split; apply Permutation_in; [symmetry|]; apply sort_perm.
Qed.

Lemma insert_sorted (x : A) (l : list A) :
  sortedb leb l = true -> sortedb leb (insert leb x l) = true.
Proof.
  induction l as [|y l IH]; intros Hs; [reflexivity|].
  simpl insert. destruct (leb x y) eqn:Hxy.
  - change (leb x y && sortedb leb (y :: l) = true). now rewrite Hxy, Hs.
  - assert (Hl : sortedb leb l = true).
    { simpl in Hs. destruct l; [reflexivity|].
      now apply andb_true_iff in Hs. }
    specialize (IH Hl).
    destruct l as [|z l]; simpl.
    + now rewrite (leb_total _ _ Hxy).
    + simpl in Hs. apply andb_true_iff in Hs as [Hyz _].
      simpl in IH. destruct (leb x z).
      * now rewrite (leb_total _ _ Hxy), IH.
      * now rewrite Hyz, IH.
Qed.

Lemma sort_sorted (l : list A) : sortedb leb (sort leb l) = true.
Proof.
  induction l as [|x l IH]; [reflexivity|]. now apply insert_sorted.
Qed.

Lemma sorted_tail (x : A) (l : list A) :
  sortedb leb (x :: l) = true -> sortedb leb l = true.
Proof.
  simpl. destruct l; [reflexivity|]. intros H.
  now apply andb_true_iff in H.
Qed.

Lemma sort_of_sorted (l : list A) : sortedb leb l = true -> sort leb l = l.
Proof.
  induction l as [|x l IH]; intros Hs; [reflexivity|].
  simpl. rewrite IH by exact (sorted_tail _ _ Hs).
  destruct l as [|y l]; [reflexivity|].
  simpl in Hs. apply andb_true_iff in Hs as [Hxy _].
  simpl. now rewrite Hxy.
Qed.

Lemma sort_idem (l : list A) : sort leb (sort leb l) = sort leb l.
Proof. apply sort_of_sorted, sort_sorted. Qed.
End SortFacts.

Lemma string_leb_total (x y : string) : String.leb x y = false -> String.leb y x = true.
Proof.
  intros H. destruct (String.leb_total x y) as [H'|H']; congruence.
Qed.

Lemma key_leb_total (x y : key) : key_leb x y = false -> key_leb y x = true.
Proof.
  destruct x, y; simpl; try congruence.
  - apply string_leb_total.
  - intros H. apply Z.leb_le. apply Z.leb_gt in H. lia.
Qed.

(** ** TypeNormalizer *)

(** Induction over a payload value, with the members of lists, sets and
    mappings as hypotheses. *)
Lemma value_nested_ind (P : value -> Prop) :
  P VNone ->
  (forall b, P (VBool b)) ->
  (forall z, P (VInt z)) ->
  (forall s, P (VStr s)) ->
  (forall l, Forall P l -> P (VList l)) ->
  (forall d, Forall (fun kv => P (snd kv)) d -> P (VDict d)) ->
  (forall l, Forall P l -> P (VSet l)) ->
  (forall body, P (VTree body)) ->
  forall v, P v.
Proof.
  intros HN HB HI HS HL HD HSet HT.
  fix IH 1. intros [ | b | z | s | l | d | l | body ].
  - exact HN.
  - apply HB.
  - apply HI.
  - apply HS.
  - apply HL. induction l as [|x l IHl]; constructor; [apply IH | exact IHl].
  - apply HD. induction d as [|[k x] d IHd]; constructor; [apply IH | exact IHd].
  - apply HSet. induction l as [|x l IHl]; constructor; [apply IH | exact IHl].
  - apply HT.
Qed.

Lemma key_eqb_eq (a b : key) : key_eqb a b = true <-> a = b.
Proof.
  destruct a, b; simpl; split; intros H; try congruence.
  - apply String.eqb_eq in H. congruence.
  - apply String.eqb_eq. congruence.
  - apply Z.eqb_eq in H. congruence.
  - apply Z.eqb_eq. congruence.
Qed.

Lemma key_eqb_refl (a : key) : key_eqb a a = true.
Proof. now apply key_eqb_eq. Qed.

Lemma str_values_app (a b : list value) :
  str_values (a ++ b) = str_values a ++ str_values b.
Proof.
  induction a as [|[ | | |s| | | | ] a IH]; simpl; rewrite ?IH; reflexivity.
Qed.

Lemma str_values_nonstr (l : list value) :
  str_values (filter (fun v => negb (is_str v)) l) = [].
Proof.
  induction l as [|[ | | |s| | | | ] l IH]; simpl; auto.
Qed.

Lemma str_values_VStr (l : list string) : str_values (map VStr l) = l.
Proof. induction l; simpl; congruence. Qed.

Lemma filter_nonstr_VStr (l : list string) :
  filter (fun v => negb (is_str v)) (map VStr l) = [].
Proof. induction l; simpl; auto. Qed.

Lemma filter_nonstr_idem (l : list value) :
  filter (fun v => negb (is_str v)) (filter (fun v => negb (is_str v)) l)
  = filter (fun v => negb (is_str v)) l.
Proof.
  induction l as [|x l IH]; simpl; [reflexivity|].
  destruct (negb (is_str x)) eqn:E; simpl; rewrite ?E, IH; reflexivity.
Qed.

Lemma In_str_values (s : string) (l : list value) :
  In s (str_values l) <-> In (VStr s) l.
Proof.
  induction l as [|x l IH]; simpl; [tauto|].
  destruct x; simpl; rewrite IH; split; intros H;
    try (right; exact H); try (destruct H as [H|H]; [discriminate H | exact H]).
  - destruct H; [left; congruence | now right].
  - destruct H as [H|H]; [left; congruence | now right].
Qed.

(** The reordering of a list only permutes it. *)
Lemma In_partition_strs (v : value) (l : list value) :
  In v (partition_strs l) <-> In v l.
Proof.
  unfold partition_strs. rewrite in_app_iff, filter_In, in_map_iff. split.
  - intros [[H _]|[s [<- H]]]; [exact H|].
    apply In_str_values. exact (proj1 (sort_In String.leb s _) H).
  - intros H. destruct v; try (left; split; [exact H | reflexivity]).
    right. exists s. split; [reflexivity|].
    apply (proj2 (sort_In String.leb s _)). now apply In_str_values.
Qed.

Lemma partition_strs_idem (l : list value) :
  partition_strs (partition_strs l) = partition_strs l.
Proof.
  unfold partition_strs.
  rewrite filter_app, filter_nonstr_idem, filter_nonstr_VStr, app_nil_r.
  rewrite str_values_app, str_values_nonstr, str_values_VStr. simpl.
  now rewrite (sort_idem String.leb string_leb_total).
Qed.

Lemma same_key_type_trans (a b c : key) :
  same_key_type a b = true -> same_key_type a c = true -> same_key_type b c = true.
Proof. destruct a, b, c; simpl; congruence. Qed.

Lemma same_key_type_refl (a : key) : same_key_type a a = true.
Proof. now destruct a. Qed.

(** Whether the keys share the type of the first one does not depend on
    their order. *)
Lemma all_first_type_spec (ks : list key) :
  all_first_type ks = true <->
  (forall a b, In a ks -> In b ks -> same_key_type a b = true).
Proof.
  destruct ks as [|k0 ks]; [simpl; tauto|].
  unfold all_first_type. rewrite forallb_forall. split.
  - intros H a b Ha Hb. eapply same_key_type_trans; apply H; assumption.
  - intros H x Hx. apply H; [now left | exact Hx].
Qed.

Lemma all_first_type_sort (ks : list key) :
  all_first_type ks = true -> all_first_type (sort key_leb ks) = true.
Proof.
  rewrite !all_first_type_spec. intros H a b Ha Hb.
  apply H; now apply (sort_In key_leb).
Qed.

Lemma map_fst_clean_attribute (d : dict) :
  map fst (map clean_attribute d) = map fst d.
Proof.
  rewrite map_map. apply map_ext. now intros [k x].
Qed.

Lemma sorted_keys_clean_attribute (d : dict) :
  sorted_keys (map clean_attribute d) = sorted_keys d.
Proof. unfold sorted_keys. now rewrite map_fst_clean_attribute. Qed.

Lemma dict_item_clean_attribute (k : key) (d : dict) :
  dict_item k (map clean_attribute d) = snd (clean_attribute (k, dict_item k d)).
Proof.
  unfold dict_item. induction d as [|[k' x] d IH]; simpl.
  - now destruct (key_eqb k (KStr "alias")).
  - destruct (key_eqb k k') eqn:E; [|exact IH].
    apply key_eqb_eq in E. now subst k'.
Qed.

Lemma clean_attribute_reorder (d : dict) :
  map clean_attribute (reorder d) = reorder (map clean_attribute d).
Proof.
  unfold reorder. rewrite sorted_keys_clean_attribute, map_map.
  apply map_ext. intros k. rewrite dict_item_clean_attribute. reflexivity.
Qed.

Lemma map_fst_reorder (d : dict) : map fst (reorder d) = sorted_keys d.
Proof. unfold reorder. rewrite map_map. simpl. apply map_id. Qed.

Lemma sorted_keys_reorder (d : dict) : sorted_keys (reorder d) = sorted_keys d.
Proof.
  unfold sorted_keys at 1. rewrite map_fst_reorder. unfold sorted_keys.
  destruct (all_first_type (map fst d)) eqn:E.
  - rewrite (all_first_type_sort _ E).
    apply (sort_idem key_leb key_leb_total).
  - now rewrite E.
Qed.

Lemma dict_get_tabulate (f : key -> value) (k : key) (ks : list key) :
  In k ks -> dict_get k (map (fun k' => (k', f k')) ks) = Some (f k).
Proof.
  induction ks as [|k' ks IH]; simpl; [tauto|]. intros H.
  destruct (key_eqb k k') eqn:E.
  - apply key_eqb_eq in E. now subst.
  - destruct H as [->|H]; [now rewrite key_eqb_refl in E | now apply IH].
Qed.

Lemma reorder_idem (d : dict) : reorder (reorder d) = reorder d.
Proof.
  unfold reorder at 1. rewrite sorted_keys_reorder.
  unfold reorder at 2. apply map_ext_in. intros k Hk.
  unfold dict_item at 1, reorder.
  now rewrite (dict_get_tabulate (fun k' => dict_item k' d) k _ Hk).
Qed.

Lemma str_of_tree_not_bool (body : string) :
  String.eqb (str_of_tree body) "true" = false
  /\ String.eqb (str_of_tree body) "false" = false.
Proof. split; reflexivity. Qed.

Lemma clean_VDict (b : bool) (d : dict) :
  clean b (VDict d) = VDict (reorder (map clean_attribute d)).
Proof. reflexivity. Qed.

Lemma clean_idem (v : value) : forall b, clean b (clean b v) = clean b v.
Proof.
  induction v as [ | b0 | z | s | l IH | d IH | l IH | body ]
    using value_nested_ind; intros b; try reflexivity.
  - simpl. destruct (String.eqb s "true") eqn:E1; [reflexivity|].
    destruct (String.eqb s "false") eqn:E2; [reflexivity|].
    simpl. now rewrite E1, E2.
  - simpl. f_equal.
    assert (E : map (clean false) (partition_strs (map (clean false) l))
                = partition_strs (map (clean false) l)).
    { rewrite <- (map_id (partition_strs _)) at 2. apply map_ext_in.
      intros x Hx. apply In_partition_strs, in_map_iff in Hx.
      destruct Hx as [y [<- Hy]]. rewrite Forall_forall in IH. now apply IH. }
    rewrite E. apply partition_strs_idem.
  - rewrite !clean_VDict. f_equal.
    rewrite clean_attribute_reorder.
    assert (E : map clean_attribute (map clean_attribute d) = map clean_attribute d).
    { rewrite map_map. apply map_ext_in. intros [k x] Hkx.
      rewrite Forall_forall in IH. specialize (IH _ Hkx). simpl in *.
      destruct (key_eqb k (KStr "alias")); [reflexivity|]. now rewrite IH. }
    rewrite E. apply reorder_idem.
  - simpl. f_equal.
    assert (E : map (clean false) (partition_strs (map (clean false) l))
                = partition_strs (map (clean false) l)).
    { rewrite <- (map_id (partition_strs _)) at 2. apply map_ext_in.
      intros x Hx. apply In_partition_strs, in_map_iff in Hx.
      destruct Hx as [y [<- Hy]]. rewrite Forall_forall in IH. now apply IH. }
    rewrite E. apply partition_strs_idem.
  - destruct b; reflexivity.
Qed.

Lemma _clean_parser_types_clean (conf : dict) :
  VDict (_clean_parser_types conf) = clean true (VDict conf).
Proof. now destruct conf. Qed.

Lemma _clean_parser_types_lst_clean (b : bool) (values : list value) :
  VList (_clean_parser_types_lst values) = clean b (VList values).
Proof. reflexivity. Qed.

(** C4.  The type normaliser is idempotent: cleaning a payload that is
    already cleaned changes nothing, for every mapping [conf] (the lists
    nested in it are handled by [_clean_parser_types_lst], which is
    idempotent as well). *)
Theorem normalize_idempotent (conf : dict) :
  _clean_parser_types (_clean_parser_types conf) = _clean_parser_types conf
  /\ forall values : list value,
      _clean_parser_types_lst (_clean_parser_types_lst values)
      = _clean_parser_types_lst values.
Proof.
  split.
  - assert (H : VDict (_clean_parser_types (_clean_parser_types conf))
                = VDict (_clean_parser_types conf)).
    { rewrite !_clean_parser_types_clean. apply clean_idem. }
    now injection H.
  - intros values.
    assert (H : VList (_clean_parser_types_lst (_clean_parser_types_lst values))
                = VList (_clean_parser_types_lst values)).
    { rewrite (_clean_parser_types_lst_clean false (_clean_parser_types_lst values)).
      rewrite (_clean_parser_types_lst_clean false values). apply clean_idem. }
    now injection H.
Qed.

(** ** RawParser: block-identifier validation *)

Lemma valid_blocks_filter (blocks out : list value) :
  valid_blocks blocks = inr out ->
  out = filter (fun b => match _is_valid_block b with inr true => true | _ => false end) blocks
  /\ Forall (fun b => exists keep, _is_valid_block b = inr keep) blocks.
Proof.
  revert out. induction blocks as [|b r IH]; simpl; intros out H.
  - injection H as <-. split; [reflexivity | constructor].
  - destruct (_is_valid_block b) as [e|keep] eqn:Eb; [discriminate|].
    destruct (valid_blocks r) as [e|r'] eqn:Er; [discriminate|].
    injection H as <-. destruct (IH r' eq_refl) as [-> HF].
    split; [now destruct keep | constructor; eauto].
Qed.

Lemma valid_blocks_kept (blocks out : list value) (block : value) :
  valid_blocks blocks = inr out ->
  (In block out <-> In block blocks /\ _is_valid_block block = inr true).
Proof.
  intros H. destruct (valid_blocks_filter _ _ H) as [-> _].
  rewrite filter_In. split; intros [Hin Hv]; split; try exact Hin.
  - destruct (_is_valid_block block) as [e|[|]]; congruence.
  - now rewrite Hv.
Qed.

Lemma validate_malformed_definitions_spec (raw_data out : hcl_payload) :
  validate_malformed_definitions raw_data = inr out ->
  Forall2 (fun i o => fst o = fst i /\ valid_blocks (snd i) = inr (snd o)) raw_data out.
Proof.
  revert out. induction raw_data as [|[bt blocks] r IH]; simpl; intros out H.
  - injection H as <-. constructor.
  - destruct (valid_blocks blocks) as [e|blocks'] eqn:Eb; [discriminate|].
    destruct (validate_malformed_definitions r) as [e|r'] eqn:Er; [discriminate|].
    injection H as <-. constructor; [now split | now apply IH].
Qed.

Lemma Forall2_In_r {A B : Type} (R : A -> B -> Prop) (l : list A) (l' : list B) (y : B) :
  Forall2 R l l' -> In y l' -> exists x, In x l /\ R x y.
Proof.
  induction 1 as [|a b l l' Hab _ IH]; simpl; [tauto|].
  intros [<-|Hy]; [exists a; auto|].
  destruct (IH Hy) as [x [Hx HR]]. exists x. auto.
Qed.

Lemma Forall2_In_l {A B : Type} (R : A -> B -> Prop) (l : list A) (l' : list B) (x : A) :
  Forall2 R l l' -> In x l -> exists y, In y l' /\ R x y.
Proof.
  induction 1 as [|a b l l' Hab _ IH]; simpl; [tauto|].
  intros [<-|Hx]; [exists b; auto|].
  destruct (IH Hx) as [y [Hy HR]]. exists y. auto.
Qed.

(** On ASCII characters the pattern's classes are those of the grammar
    [[A-Za-z_][A-Za-z0-9_-]*]. *)
Lemma name_classes_ascii (c : ascii) :
  (nat_of_ascii c <? 128)%nat = true ->
  is_name_start c = (is_ascii_letter c || is_underscore c)
  /\ is_name_char c
     = (is_ascii_letter c || is_ascii_digit c || is_underscore c || is_hyphen c).
Proof.
  destruct c as [[|] [|] [|] [|] [|] [|] [|] [|]];
    vm_compute; intros H; try discriminate H; split; reflexivity.
Qed.

Lemma fullmatch_ascii (name : string) :
  is_ascii_string name = true -> fullmatch_entity_name name = ascii_identifier name.
Proof.
  destruct name as [|c r]; [reflexivity|].
  unfold is_ascii_string. simpl. intros H. apply andb_true_iff in H as [Hc Hr].
  rewrite (proj1 (name_classes_ascii c Hc)). f_equal.
  induction r as [|x r IH]; [reflexivity|].
  simpl in *. apply andb_true_iff in Hr as [Hx Hr].
  now rewrite (proj2 (name_classes_ascii x Hx)), (IH Hr).
Qed.

(** C5, as stated, fails: a block whose key is a non-ASCII letter lies
    outside the grammar [[A-Za-z_][A-Za-z0-9_-]*] and is retained. *)
Lemma block_validation_ascii_counterexample :
  ~ (forall (raw_data out : hcl_payload),
        validate_malformed_definitions raw_data = inr out ->
        forall block_type blocks name x rest,
          In (block_type, blocks) out ->
          In (VDict ((KStr name, x) :: rest)) blocks ->
          ascii_identifier name = true).
Proof.
  intros H.
  specialize (H [("resource", [VDict [(KStr e_acute, VDict [])]])]
                [("resource", [VDict [(KStr e_acute, VDict [])]])]
                eq_refl "resource" [VDict [(KStr e_acute, VDict [])]]
                e_acute (VDict []) []).
  assert (E : ascii_identifier e_acute = true).
  { apply H; left; reflexivity. }
  vm_compute in E. discriminate E.
Qed.

(** C5, amended.  Block-identifier validation keeps the block types and,
    under each, exactly the blocks that are not mappings and the non-empty
    mappings whose first key fully matches [[^\W0-9][\w-]*], where [\w]
    takes the Unicode word characters; on ASCII keys this is the grammar
    [[A-Za-z_][A-Za-z0-9_-]*].  Empty blocks and blocks whose first key
    falls outside the pattern are absent from the result. *)
Theorem block_validation (raw_data out : hcl_payload) :
  validate_malformed_definitions raw_data = inr out ->
  map fst out = map fst raw_data
  /\ (forall block_type blocks' block,
         In (block_type, blocks') out -> In block blocks' ->
         match block with
         | VDict [] => False
         | VDict ((KStr name, _) :: _) => fullmatch_entity_name name = true
         | VDict ((KInt _, _) :: _) => False
         | _ => True
         end)
  /\ (forall block_type blocks block,
         In (block_type, blocks) raw_data -> In block blocks ->
         _is_valid_block block = inr true ->
         exists blocks', In (block_type, blocks') out /\ In block blocks')
  /\ (forall name, is_ascii_string name = true ->
                   fullmatch_entity_name name = ascii_identifier name).
Proof.
  intros H. pose proof (validate_malformed_definitions_spec _ _ H) as HF.
  repeat split.
  - clear H. induction HF as [|i o l l' [Hio _] _ IH]; simpl; congruence.
  - intros bt blocks' block Hin Hb.
    destruct (Forall2_In_r _ _ _ _ HF Hin) as [[bt0 blocks] [_ [_ Hv]]].
    simpl in Hv. apply (valid_blocks_kept _ _ block Hv) in Hb as [_ Hb].
    destruct block as [ | | | | |[|[[name|z] x] rest]| | ]; simpl in Hb;
      try exact I; congruence.
  - intros bt blocks block Hin Hb Hvalid.
    destruct (Forall2_In_l _ _ _ _ HF Hin) as [[bt' blocks'] [Hin' [Hbt Hv]]].
    simpl in Hbt, Hv. subst bt'. exists blocks'. split; [exact Hin'|].
    apply (valid_blocks_kept _ _ block Hv). now split.
  - apply fullmatch_ascii.
Qed.

Lemma block_validation_witness :
  validate_malformed_definitions
    [("resource", [VDict []; VDict [(KStr "9x", VDict [])];
                   VDict [(KStr "a_b-1", VDict [])]; VStr "t"])]
  = inr [("resource", [VDict [(KStr "a_b-1", VDict [])]; VStr "t"])]
  /\ map fst [("resource", [VDict [(KStr "a_b-1", VDict [])]; VStr "t"])]
     = ["resource"].
Proof.
  split; [reflexivity|].
  exact (proj1 (block_validation
                  [("resource", [VDict []; VDict [(KStr "9x", VDict [])];
                                 VDict [(KStr "a_b-1", VDict [])]; VStr "t"])]
                  [("resource", [VDict [(KStr "a_b-1", VDict [])]; VStr "t"])]
                  eq_refl)).
Defined.

(** ** RawParser: JSON files bypass the filters *)

(** C9.  For a file whose name ends in [.json] the loader returns what the
    JSON decoder gives, whatever [clean_definitions] is: no block is
    validated or cleaned (a decode failure is recorded under the path).
    The filters apply to what the HCL decoder gives. *)
Theorem json_returned_unfiltered (dec : Decoders) (file_path : string)
    (parsing_errors : errors) (clean_definitions : bool) :
  endswith (basename file_path) ".json" = true ->
  _load_or_die_quietly dec file_path parsing_errors clean_definitions
  = match json_load dec file_path with
    | inr v => (Some v, parsing_errors)
    | inl e => (None, errors_set file_path e parsing_errors)
    end.
Proof.
  intros H. unfold _load_or_die_quietly. rewrite H.
  now destruct (json_load dec file_path).
Qed.

Lemma json_returned_unfiltered_witness :
  _load_or_die_quietly decoders_bad_blocks "/r/main.tf.json" [] true
  = (Some (VDict [(KStr "resource", VList two_bad_blocks)]), [])
  /\ _load_or_die_quietly decoders_bad_blocks "/r/main.tf" [] true
     = (Some (VDict [(KStr "resource", VList [])]), []).
Proof.
  split; [|reflexivity].
  exact (json_returned_unfiltered decoders_bad_blocks "/r/main.tf.json" [] true eq_refl).
Defined.

(** ** The unresolved-parameter gate *)

Lemma string_free_acceptable (simple_var : string -> bool) (v : value) :
  string_free v = true -> is_acceptable_module_param simple_var v = true.
Proof.
  induction v as [ | b | z | s | l IH | d IH | l IH | body ]
    using value_nested_ind; simpl; intros H; try reflexivity; try discriminate H.
  - rewrite forallb_forall in *. rewrite Forall_forall in IH. auto.
  - rewrite forallb_forall in *. rewrite Forall_forall in IH.
    intros [k x] Hkx. specialize (H _ Hkx). specialize (IH _ Hkx). simpl in *.
    apply andb_true_iff in H as [Hx Hk].
    rewrite (IH Hx). now destruct k.
  - rewrite forallb_forall in *. rewrite Forall_forall in IH. auto.
Qed.

(** C10.  The acceptability check returns true on every value that is
    neither a string nor a dict, list or set; and a module call whose
    parameter keys and values hold no string anywhere is not deferred by the
    gate, forced pass or not. *)
Theorem string_free_params_not_deferred (simple_var : string -> bool) :
  (forall v : value,
      match v with
      | VStr _ | VDict _ | VList _ | VSet _ => True
      | _ => is_acceptable_module_param simple_var v = true
      end)
  /\ (forall (specified_vars : dict) (ignore_unresolved_params : bool),
         forallb (fun '(k, v) => string_free v && string_free_key k) specified_vars = true ->
         gate_defers simple_var ignore_unresolved_params specified_vars = false).
Proof.
  split.
  - now intros [ | | | | | | | ].
  - intros specified_vars ignore H. unfold gate_defers, has_unresolved_params.
    apply andb_false_iff. right.
    apply not_true_is_false. intros E. apply existsb_exists in E as [[k v] [Hin E]].
    rewrite forallb_forall in H. specialize (H _ Hin). simpl in H.
    apply andb_true_iff in H as [Hv Hk].
    rewrite (string_free_acceptable simple_var v Hv) in E.
    destruct k; simpl in *; discriminate.
Qed.

Lemma string_free_params_not_deferred_witness :
  gate_defers (fun _ => true) false
    [(KInt 1, VInt 3); (KInt 2, VList [VBool true; VNone; VDict [(KInt 0, VInt 1)]])]
  = false.
Proof.
  exact (proj2 (string_free_params_not_deferred (fun _ => true))
               [(KInt 1, VInt 3); (KInt 2, VList [VBool true; VNone; VDict [(KInt 0, VInt 1)]])]
               false eq_refl).
Defined.

(** ** The monad *)

Local Open Scope monad_scope.

Lemma for_fold_invariant {X S : Type} (I : S -> Prop) (body : S -> X -> M S) (l : list X) :
  (forall s x p p' s', I s -> body s x p = (p', inr s') -> I s') ->
  forall s p p' s', I s -> for_fold l s body p = (p', inr s') -> I s'.
Proof.
  intros Hbody. induction l as [|x l IH]; intros s p p' s' Hs H.
  - simpl in H. unfold ret in H. now injection H as _ <-.
  - simpl in H. unfold bind in H.
    destruct (body s x p) as [p1 [e|s1]] eqn:E; [discriminate|].
    exact (IH _ _ _ _ (Hbody _ _ _ _ _ Hs E) H).
Qed.

Lemma bind_inr {A B : Type} (m : M A) (f : A -> M B) (p p' : Parser) (b : B) :
  bind m f p = (p', inr b) ->
  exists p1 a, m p = (p1, inr a) /\ f a p1 = (p', inr b).
Proof.
  unfold bind. destruct (m p) as [p1 [e|a]]; [discriminate|]. eauto.
Qed.

(** ** The module-load loop *)

Lemma module_load_loop_trace (load : bool -> M bool) (passes : nat) :
  forall force p p' trace,
    module_load_loop passes force load p = (p', inr trace) ->
    List.length trace <= passes
    /\ loop_trace_ok force trace
    /\ (List.length trace = passes
        \/ exists force', last trace (false, true) = (force', false)).
Proof.
  induction passes as [|n IH]; intros force p p' trace H.
  - simpl in H. unfold ret in H. injection H as _ <-. simpl. auto.
  - simpl in H. apply bind_inr in H as [p1 [has_more [Hl H]]].
    destruct has_more; simpl in H.
    + apply bind_inr in H as [p2 [rest [Hr H]]].
      unfold ret in H. injection H as _ <-.
      destruct (IH _ _ _ _ Hr) as [Hlen [Hok Hexit]]. simpl.
      split; [lia|]. split.
      * split; [reflexivity|]. split; [now destruct rest | exact Hok].
      * destruct Hexit as [Hexit|[force' Hexit]]; [left; lia|].
        right. exists force'. destruct rest as [|x rest]; [discriminate Hexit|].
        exact Hexit.
    + unfold ret in H. injection H as _ <-. simpl.
      split; [lia|]. split; [auto|]. right. now exists force.
Qed.

(** The loop stops by itself after a pass that reports no skipped call. *)
Lemma module_load_loop_two (load : bool -> M bool) (passes : nat) :
  (forall p p' b, load true p = (p', inr b) -> b = false) ->
  forall p p' trace,
    module_load_loop passes false load p = (p', inr trace) ->
    List.length trace <= 2.
Proof.
  intros Hforced. destruct passes as [|n]; intros p p' trace H.
  - simpl in H. unfold ret in H. injection H as _ <-. simpl. lia.
  - simpl in H. apply bind_inr in H as [p1 [has_more [_ H]]].
    destruct has_more; simpl in H.
    + apply bind_inr in H as [p2 [rest [Hr H]]].
      unfold ret in H. injection H as _ <-.
      destruct n as [|n]; simpl in Hr.
      * unfold ret in Hr. injection Hr as _ <-. simpl. lia.
      * apply bind_inr in Hr as [p3 [b [Hb Hr]]].
        rewrite (Hforced _ _ _ Hb) in Hr. simpl in Hr.
        unfold ret in Hr. injection Hr as _ <-. simpl. lia.
    + unfold ret in H. injection H as _ <-. simpl. lia.
Qed.

(** A forced pass skips nothing: [skipped_a_module] is only set behind the
    gate. *)
Lemma load_module_call_forced (rec : string -> dict -> M unit) (w : World)
    (root_dir file oid : string) (module_index : nat)
    (s s' : list (string * string) * bool) (module_call_name : key) (p p' : Parser) :
  snd s = false ->
  load_module_call rec w root_dir true file oid module_index s module_call_name p
  = (p', inr s') ->
  snd s' = false.
Proof.
  intros Hs H. unfold load_module_call in H.
  apply bind_inr in H as [p1 [q [Hq H]]]. unfold get_parser in Hq.
  injection Hq as <- <-.
  destruct (heap_get p oid) as [file_data|];
    [|unfold ret in H; now injection H as _ <-].
  destruct (call_data_of file_data module_index module_call_name) as [[ | | | | |d| | ]|];
    try (unfold ret in H; now injection H as _ <-).
  destruct (existsb _ _); [unfold ret in H; now injection H as _ <-|].
  apply bind_inr in H as [p1 [sv [_ H]]].
  unfold gate_defers in H. simpl in H.
  apply bind_inr in H as [p2 [u [_ H]]].
  destruct (dict_get (KStr "source") d) as [[ | | | |[|[ | | |src| | | | ] l]| | | ]|];
    try (unfold ret in H; now injection H as _ <-).
  unfold try_or in H.
  match type of H with
  | match ?m p2 with _ => _ end = _ => destruct (m p2) as [p3 [e|r]] eqn:E
  end.
  - now injection H as _ <-.
  - injection H as _ <-. clear -E Hs.
    unfold load_module_content in E.
    apply bind_inr in E as [p4 [content [_ E]]].
    destruct (negb (loaded content)); [unfold ret in E; now injection E as _ <-|].
    apply bind_inr in E as [p5 [u [_ E]]].
    apply bind_inr in E as [p6 [q [_ E]]].
    destruct (filter _ _); [unfold ret in E; now injection E as _ <-|].
    apply bind_inr in E as [p7 [r0 [_ E]]].
    apply bind_inr in E as [p8 [[md r1] [_ E]]].
    destruct (sort_resolved w r1) as [r2 [e|]].
    + apply bind_inr in E as [p9 [u' [_ E]]]. discriminate E.
    + apply bind_inr in E as [p9 [u' [_ E]]].
      apply bind_inr in E as [p10 [a [_ E]]].
      unfold ret in E. now injection E as _ <-.
Qed.

Lemma _load_modules_forced (rec : string -> dict -> M unit) (w : World)
    (root_dir : string) (p p' : Parser) (b : bool) :
  _load_modules rec w root_dir true p = (p', inr b) -> b = false.
Proof.
  intros H. unfold _load_modules in H.
  apply bind_inr in H as [p1 [q [_ H]]].
  apply bind_inr in H as [p2 [s [Hs H]]].
  apply bind_inr in H as [p3 [u [_ H]]].
  unfold ret in H. injection H as _ <-.
  revert Hs. apply (for_fold_invariant (fun s => snd s = false)); [|reflexivity].
  clear. intros s file p p' s' Hs H. unfold load_file_modules in H.
  destruct (negb (String.eqb (dirname file) root_dir));
    [unfold ret in H; now injection H as _ <-|].
  destruct (endswith file "]"); [unfold ret in H; now injection H as _ <-|].
  apply bind_inr in H as [p1 [q [_ H]]].
  destruct (assoc file (out_definitions q)) as [oid|];
    [|unfold ret in H; now injection H as _ <-].
  destruct (heap_get q oid) as [[ | | | | |d| | ]|];
    try discriminate H; try (unfold ret in H; now injection H as _ <-).
  destruct (dict_get (KStr "module") d) as [[ | | | |[|c cs]| | | ]|];
    try (unfold ret in H; now injection H as _ <-).
  revert H. apply (for_fold_invariant (fun s => snd s = false)); [|exact Hs].
  clear. intros s [i call] p p' s' Hs H. simpl in H.
  destruct call as [ | | | | |module_call| | ];
    try (unfold ret in H; now injection H as _ <-).
  revert H. apply (for_fold_invariant (fun s => snd s = false)); [|exact Hs].
  intros s0 n q q' s1 Hs0 H. eapply load_module_call_forced; eassumption.
Qed.

Lemma _internal_dir_load_S (d : nat) (w : World) (env : list (string * string))
    (directory : string) (given : option dict) (vars_files excluded_paths : option (list string)) :
  _internal_dir_load (S d) w env directory given vars_files excluded_paths
  = (load_dir_files w directory env given vars_files excluded_paths ;;
     module_load_loop 10 false
       (_load_modules
          (fun content_dir specified =>
             _internal_dir_load d w env content_dir (Some specified) None None ;; ret tt)
          w directory))%monad.
Proof. reflexivity. Qed.

(** C8.  The module-load loop of a directory always ends, after one to ten
    passes: a pass that skipped no module call is the last one, every pass
    after the first is a forced one, and a run that does not end on such a
    pass has run the ten passes of the circuit breaker.  (A forced pass
    skips nothing, so that two passes are the most that are run.) *)
Theorem module_load_loop_terminates (depth : nat) (w : World) (env : list (string * string))
    (directory : string) (given_specified_vars : option dict)
    (vars_files excluded_paths : option (list string)) (p : Parser) :
  exists p' r,
    _internal_dir_load depth w env directory given_specified_vars vars_files excluded_paths p
    = (p', r)
    /\ match r with
       | inl _ => True
       | inr trace =>
           1 <= List.length trace <= 10
           /\ List.length trace <= 2
           /\ loop_trace_ok false trace
           /\ (List.length trace = 10
               \/ exists force, last trace (false, true) = (force, false))
       end.
Proof.
  destruct (_internal_dir_load depth w env directory given_specified_vars
              vars_files excluded_paths p) as [p' r] eqn:E.
  exists p', r. split; [reflexivity|].
  destruct r as [e|trace]; [exact I|].
  destruct depth as [|d]; [discriminate E|].
  rewrite _internal_dir_load_S in E. apply bind_inr in E as [p1 [m [_ E]]].
  destruct (module_load_loop_trace _ _ _ _ _ _ E) as [Hlen [Hok Hexit]].
  pose proof (module_load_loop_two _ 10 (_load_modules_forced _ w directory) _ _ _ E) as H2.
  repeat split; try assumption.
  destruct Hexit as [Hexit|[force Hexit]]; [lia|].
  destruct trace; [discriminate Hexit | simpl; lia].
Qed.

(** ** Unresolved parameters *)




(** ** File discovery *)

Lemma is_prefix_tf_json (l : list ascii) :
  is_prefix (rev (list_ascii_of_string ".tf.json")) l = true ->
  is_prefix (rev (list_ascii_of_string ".tf")) l = false
  /\ is_prefix (rev (list_ascii_of_string ".hcl")) l = false.
Proof.
  destruct l as [|c l]; [discriminate|].
  destruct c as [[|] [|] [|] [|] [|] [|] [|] [|]];
    try (intros H; discriminate H); intros _; split; reflexivity.
Qed.

(** A name that ends in [.tf.json] ends neither in [.tf] nor in [.hcl]. *)
Lemma endswith_tf_json (n : string) :
  endswith n ".tf.json" = true -> endswith n ".tf" = false /\ endswith n ".hcl" = false.
Proof. apply is_prefix_tf_json. Qed.

Lemma scan_entry_tf_files (vars_files : option (list string)) (sc : Scan) (file : DirEntry) :
  tf_files_to_load (scan_entry vars_files sc file)
  = tf_files_to_load sc ++ (if is_resource_file vars_files file then [file] else []).
Proof.
  unfold scan_entry, is_resource_file.
  destruct (is_file file) as [e|[|]]; try (now rewrite app_nil_r).
  destruct (String.eqb (name file) "terraform.tfvars.json"); [now rewrite app_nil_r|].
  destruct (String.eqb (name file) "terraform.tfvars"); [now rewrite app_nil_r|].
  destruct (endswith (name file) ".auto.tfvars.json" || endswith (name file) ".auto.tfvars");
    [now rewrite app_nil_r|].
  destruct (is_explicit_var_file vars_files (path file)); [now rewrite app_nil_r|].
  destruct (endswith (name file) ".tf" || endswith (name file) ".hcl");
    simpl; [reflexivity | now rewrite app_nil_r].
Qed.

Lemma scan_directory_tf_files (vars_files : option (list string)) (dir_contents : list DirEntry) :
  tf_files_to_load (scan_directory vars_files dir_contents)
  = filter (is_resource_file vars_files) dir_contents.
Proof.
  unfold scan_directory.
  enough (H : forall sc, tf_files_to_load (fold_left (scan_entry vars_files) dir_contents sc)
                         = tf_files_to_load sc ++ filter (is_resource_file vars_files) dir_contents)
    by apply (H empty_scan).
  induction dir_contents as [|f l IH]; intros sc; simpl; [now rewrite app_nil_r|].
  rewrite IH, scan_entry_tf_files.
  destruct (is_resource_file vars_files f); [now rewrite <- app_assoc | now rewrite app_nil_r].
Qed.

Lemma tf_json_not_resource_file (vars_files : option (list string)) (file : DirEntry) :
  endswith (name file) ".tf.json" = true -> is_resource_file vars_files file = false.
Proof.
  intros H. destruct (endswith_tf_json _ H) as [H1 H2].
  unfold is_resource_file. rewrite H1, H2.
  destruct (is_file file) as [e|[|]]; try reflexivity.
  now rewrite !andb_false_r.
Qed.

(** ** Stage 1 and the store *)

Lemma assoc_assoc_set {A : Type} (k g : string) (a : A) (m : list (string * A)) :
  assoc k (assoc_set g a m) = if String.eqb k g then Some a else assoc k m.
Proof.
  induction m as [|[k' a'] m IH]; simpl.
  - reflexivity.
  - destruct (String.eqb g k') eqn:E; simpl.
    + apply String.eqb_eq in E. subst k'. now destruct (String.eqb k g).
    + rewrite IH. destruct (String.eqb k k') eqn:E'; [|reflexivity].
      apply String.eqb_eq in E'. subst k'.
      now rewrite String.eqb_sym, E.
Qed.

Lemma assoc_app_l {A : Type} (k : string) (a : A) (m m' : list (string * A)) :
  assoc k m = Some a -> assoc k (m ++ m') = Some a.
Proof.
  induction m as [|[k' a'] m IH]; simpl; [discriminate|].
  destruct (String.eqb k k'); auto.
Qed.

Lemma assoc_app_None {A : Type} (k : string) (m m' : list (string * A)) :
  assoc k m = None -> assoc k (m ++ m') = assoc k m'.
Proof.
  induction m as [|[k' a'] m IH]; simpl; [reflexivity|].
  destruct (String.eqb k k'); [discriminate | auto].
Qed.

(** What [_load_or_die_quietly] returns does not depend on the sink. *)
Lemma _load_or_die_quietly_fst (dec : Decoders) (f : string) (errs : errors) (c : bool) :
  fst (_load_or_die_quietly dec f errs c) = fst (_load_or_die_quietly dec f [] c).
Proof.
  unfold _load_or_die_quietly.
  destruct (endswith (basename f) ".json").
  - now destruct (json_load dec f).
  - destruct (hcl2_load dec f) as [e|raw]; [reflexivity|].
    destruct (validate_malformed_definitions raw); [reflexivity|].
    now destruct c.
Qed.

Lemma record_results_spec (dec : Decoders) (to_parse : list DirEntry) :
  forall p res p',
    record_results dec to_parse p = (res, p') ->
    res = map (fun f => (path f, fst (_load_or_die_quietly dec (path f) [] true))) to_parse
    /\ out_definitions p' = out_definitions p
    /\ _loaded_modules p' = _loaded_modules p
    /\ (forall k x, assoc k (loaded_files_map p) = Some x ->
                    assoc k (loaded_files_map p') = Some x)
    /\ (forall f, In f to_parse ->
                  assoc (path f) (loaded_files_map p) = None ->
                  assoc (path f) (loaded_files_map p')
                  = Some (fst (_load_or_die_quietly dec (path f) [] true))).
Proof.
  induction to_parse as [|file r IH]; intros p res p' H; simpl in H.
  - injection H as <- <-. repeat split; auto. intros f [].
  - destruct (_load_or_die_quietly dec (path file) [] true) as [result errs] eqn:E.
    match type of H with
    | (let '(rest, p3) := record_results dec r ?q in _) = _ =>
        destruct (record_results dec r q) as [rest p3] eqn:Er; set (p2 := q) in *
    end.
    injection H as <- <-.
    destruct (IH _ _ _ Er) as [Hres [Hout [Hlm [Hmono Hnew]]]].
    assert (Hp2 : forall k x, assoc k (loaded_files_map p) = Some x ->
                              assoc k (loaded_files_map p2) = Some x).
    { intros k x Hk. subst p2. simpl.
      destruct (assoc (path file) (loaded_files_map p)); simpl; [exact Hk|].
      now apply assoc_app_l. }
    assert (Hfile : assoc (path file) (loaded_files_map p) = None ->
                    assoc (path file) (loaded_files_map p2) = Some result).
    { intros Hn. subst p2. simpl. rewrite Hn. simpl.
      rewrite (assoc_app_None _ _ _ Hn). simpl. now rewrite String.eqb_refl. }
    repeat split.
    + rewrite Hres. cbn [map]. now rewrite E.
    + rewrite Hout. subst p2. simpl.
      now destruct (assoc (path file) (loaded_files_map p)).
    + rewrite Hlm. subst p2. simpl.
      now destruct (assoc (path file) (loaded_files_map p)).
    + intros k x Hk. apply Hmono, Hp2, Hk.
    + intros f [<-|Hf] Hn.
      * rewrite E. apply Hmono. now apply Hfile.
      * destruct (String.eqb (path f) (path file)) eqn:Ef.
        -- apply String.eqb_eq in Ef. rewrite Ef in *.
           rewrite E. apply Hmono. now apply Hfile.
        -- apply Hnew; [exact Hf|]. subst p2. simpl.
           destruct (assoc (path file) (loaded_files_map p)) eqn:Ea; simpl; [exact Hn|].
           rewrite (assoc_app_None _ _ _ Hn). simpl. now rewrite Ef.
Qed.

Lemma split_cached_fresh (p : Parser) (files : list DirEntry) :
  loaded_files_map p = [] -> split_cached p files = ([], files).
Proof.
  intros Hp. induction files as [|f r IH]; simpl; [reflexivity|].
  rewrite IH. unfold heap_get. now rewrite Hp.
Qed.

Lemma _load_files_state (w : World) (files : list DirEntry) (p p' : Parser)
    (r : exn + list (string * option value)) :
  _load_files w files p = (p', r) ->
  out_definitions p' = out_definitions p
  /\ _loaded_modules p' = _loaded_modules p
  /\ (forall k x, assoc k (loaded_files_map p) = Some x ->
                  assoc k (loaded_files_map p') = Some x).
Proof.
  unfold _load_files. destruct (split_cached p files) as [cached to_parse].
  destruct (record_results (decoders w) to_parse p) as [parsed q] eqn:E.
  intros H. injection H as <- _.
  destruct (record_results_spec _ _ _ _ _ E) as [_ [Ho [Hl [Hm _]]]]. auto.
Qed.

Lemma _load_files_fresh (w : World) (files : list DirEntry) (p p' : Parser)
    (r : exn + list (string * option value)) :
  loaded_files_map p = [] ->
  _load_files w files p = (p', r) ->
  r = inr (map (fun f => (path f, fst (_load_or_die_quietly (decoders w) (path f) [] true)))
               files)
  /\ (forall f, In f files ->
                assoc (path f) (loaded_files_map p')
                = Some (fst (_load_or_die_quietly (decoders w) (path f) [] true))).
Proof.
  intros Hp. unfold _load_files. rewrite (split_cached_fresh _ _ Hp).
  destruct (record_results (decoders w) files p) as [parsed q] eqn:E.
  intros H. injection H as <- <-.
  destruct (record_results_spec _ _ _ _ _ E) as [-> [_ [_ [_ Hn]]]].
  split; [reflexivity|]. intros f Hf. apply Hn; [exact Hf|]. now rewrite Hp.
Qed.

Lemma register_file_state (m m' : var_map) (fd : string * option value) (p p' : Parser) :
  register_file m fd p = (p', inr m') ->
  loaded_files_map p' = loaded_files_map p
  /\ (forall f, assoc f (out_definitions p) = Some f -> assoc f (out_definitions p') = Some f)
  /\ (forall v, snd fd = Some v -> truthy v = true ->
                assoc (fst fd) (out_definitions p') = Some (fst fd)).
Proof.
  destruct fd as [file [v|]]; simpl.
  - destruct (truthy v) eqn:Ev.
    + unfold bind, modify, lift. destruct (file_defaults file v m); [discriminate|].
      intros H. injection H as <- _. simpl. repeat split.
      * intros f Hf. rewrite assoc_assoc_set.
        destruct (String.eqb f file) eqn:E; [|exact Hf].
        apply String.eqb_eq in E. now subst.
      * intros _ _ _. now rewrite assoc_assoc_set, String.eqb_refl.
    + unfold ret. intros H. injection H as <- _. repeat split; auto.
      intros v' Hv'. injection Hv' as <-. congruence.
  - unfold ret. intros H. injection H as <- _. repeat split; auto. discriminate.
Qed.

Lemma register_files_state (l : list (string * option value)) :
  forall m m' p p',
    for_fold l m register_file p = (p', inr m') ->
    loaded_files_map p' = loaded_files_map p
    /\ (forall f, assoc f (out_definitions p) = Some f -> assoc f (out_definitions p') = Some f)
    /\ (forall f v, In (f, Some v) l -> truthy v = true ->
                    assoc f (out_definitions p') = Some f).
Proof.
  induction l as [|fd l IH]; intros m m' p p' H.
  - simpl in H. unfold ret in H. injection H as <- _. repeat split; auto. intros f v [].
  - simpl in H. apply bind_inr in H as [p1 [m1 [H1 H]]].
    destruct (register_file_state _ _ _ _ _ H1) as [Hl1 [Hk1 Hn1]].
    destruct (IH _ _ _ _ H) as [Hl [Hk Hn]].
    repeat split.
    + congruence.
    + auto.
    + intros f v [->|Hin] Hv; [|eauto].
      apply Hk. exact (Hn1 v eq_refl Hv).
Qed.

Lemma load_var_file_state (w : World) (file : DirEntry) (c : bool) (p p' : Parser)
    (r : exn + option value) :
  load_var_file w file c p = (p', r) ->
  out_definitions p' = out_definitions p /\ loaded_files_map p' = loaded_files_map p.
Proof.
  unfold load_var_file.
  destruct (_load_or_die_quietly _ _ _ _) as [data errs].
  intros H. injection H as <- _. auto.
Qed.

Lemma lift_state {A : Type} (x : exn + A) (p p' : Parser) (r : exn + A) :
  lift x p = (p', r) -> p' = p.
Proof. unfold lift. intros H. now injection H as <- _. Qed.




(** ** An invariant of the state through the monad *)

Section Triple.
Variable I : Parser -> Prop.


Lemma triple_ret {A : Type} (a : A) (Q : A -> Prop) : Q a -> triple I (ret a) Q.
Proof. intros Ha p p' r Hp H. unfold ret in H. injection H as <- <-. auto. Qed.

Lemma triple_raise {A : Type} (e : exn) (Q : A -> Prop) : triple I (raise e) Q.
Proof. intros p p' r Hp H. unfold raise in H. injection H as <- <-. auto. Qed.

Lemma triple_lift {A : Type} (x : exn + A) (Q : A -> Prop) :
  (forall a, x = inr a -> Q a) -> triple I (lift x) Q.
Proof.
  intros Hx p p' r Hp H. unfold lift in H. injection H as <- <-.
  split; [exact Hp|]. destruct x; auto.
Qed.

Lemma triple_bind {A B : Type} (m : M A) (f : A -> M B) (Q : A -> Prop) (R : B -> Prop) :
  triple I m Q -> (forall a, Q a -> triple I (f a) R) -> triple I (bind m f) R.
Proof.
  intros Hm Hf p p' r Hp H. unfold bind in H.
  destruct (m p) as [p1 [e|a]] eqn:E.
  - injection H as <- <-. destruct (Hm _ _ _ Hp E). auto.
  - destruct (Hm _ _ _ Hp E) as [Hp1 Ha]. exact (Hf a Ha _ _ _ Hp1 H).
Qed.

Lemma triple_get : triple I get_parser I.
Proof. intros p p' r Hp H. unfold get_parser in H. injection H as <- <-. auto. Qed.

Lemma triple_modify (f : Parser -> Parser) :
  (forall p, I p -> I (f p)) -> triple I (modify f) (fun _ => True).
Proof. intros Hf p p' r Hp H. unfold modify in H. injection H as <- <-. auto. Qed.

Lemma triple_try_or {A : Type} (m : M A) (dflt : A) (Q : A -> Prop) :
  triple I m Q -> Q dflt -> triple I (try_or m dflt) Q.
Proof.
  intros Hm Hd p p' r Hp H. unfold try_or in H.
  destruct (m p) as [p1 [e|a]] eqn:E.
  - injection H as <- <-. destruct (Hm _ _ _ Hp E). auto.
  - injection H as <- <-. exact (Hm _ _ _ Hp E).
Qed.

Lemma triple_for_fold {X S : Type} (J : S -> Prop) (body : S -> X -> M S) (l : list X) :
  (forall s x, J s -> triple I (body s x) J) ->
  forall s, J s -> triple I (for_fold l s body) J.
Proof.
  intros Hbody. induction l as [|x l IH]; intros s Hs; simpl.
  - now apply triple_ret.
  - eapply triple_bind; [apply Hbody, Hs | exact IH].
Qed.

Lemma triple_for_each {X : Type} (body : X -> M unit) (l : list X) :
  (forall x, triple I (body x) (fun _ => True)) ->
  triple I (for_each l body) (fun _ => True).
Proof.
  intros Hbody. induction l as [|x l IH]; simpl.
  - now apply triple_ret.
  - eapply triple_bind; [apply Hbody | intros _ _; exact IH].
Qed.
End Triple.

(** ** Lists of definition keys *)

Lemma in_strings_In (x : string) (l : list string) : in_strings x l = true <-> In x l.
Proof.
  unfold in_strings. rewrite existsb_exists. split.
  - intros [y [Hy E]]. apply String.eqb_eq in E. now subst.
  - intros H. exists x. split; [exact H | apply String.eqb_refl].
Qed.

Lemma nodupb_NoDup (l : list string) : nodupb l = true <-> NoDup l.
Proof.
  induction l as [|x l IH]; simpl.
  - split; [constructor | reflexivity].
  - rewrite andb_true_iff, negb_true_iff, IH. split.
    + intros [Hx Hl]. constructor; [|exact Hl].
      intros Hin. apply in_strings_In in Hin. congruence.
    + intros H. inversion H as [|y r Hx Hl]; subst. split; [|exact Hl].
      apply not_true_is_false. intros Hin. apply in_strings_In in Hin. contradiction.
Qed.

Lemma str_in_str_values (k : string) (l : list value) :
  str_in k l = in_strings k (str_values l).
Proof.
  induction l as [|[ | | |s| | | | ] l IH]; simpl; auto.
  now rewrite IH.
Qed.

Lemma append_new_ok (l : list value) (k : string) :
  strs_okb l = true -> strs_okb (append_new l k) = true.
Proof.
  unfold strs_okb, append_new. intros H.
  destruct (str_in k l) eqn:E; [exact H|].
  apply andb_true_iff in H as [Hs Hn].
  rewrite forallb_app, Hs, str_values_app. simpl.
  apply nodupb_NoDup. apply nodupb_NoDup in Hn.
  rewrite str_in_str_values in E.
  apply NoDup_app; [exact Hn | repeat constructor; auto |].
  intros x Hx [<-|[]]. apply in_strings_In in Hx. congruence.
Qed.

Lemma fold_append_new_ok (keys : list string) (l : list value) :
  strs_okb l = true -> strs_okb (fold_left append_new keys l) = true.
Proof.
  revert l. induction keys as [|k keys IH]; intros l H; simpl; [exact H|].
  apply IH, append_new_ok, H.
Qed.

Lemma forallb_is_str_VStr (l : list string) : forallb is_str (map VStr l) = true.
Proof. induction l; simpl; auto. Qed.

(** Sorting a list of distinct strings gives a list in order and without
    duplicates. *)
Lemma sorted_strs_ok (l : list value) :
  strs_okb l = true ->
  resolved_okb (map VStr (sort String.leb (str_values l))) = true.
Proof.
  unfold strs_okb, resolved_okb. intros H. apply andb_true_iff in H as [_ Hn].
  rewrite forallb_is_str_VStr, str_values_VStr.
  rewrite (sort_sorted String.leb string_leb_total). simpl.
  apply nodupb_NoDup. apply nodupb_NoDup in Hn.
  eapply Permutation_NoDup; [apply sort_perm | exact Hn].
Qed.

Lemma sort_resolved_ok (w : World) (l : list value) :
  strs_okb l = true ->
  snd (sort_resolved w l) = None /\ resolved_okb (fst (sort_resolved w l)) = true.
Proof.
  intros H. pose proof (sorted_strs_ok l H) as Hs.
  unfold strs_okb in H. apply andb_true_iff in H as [Hstr _].
  unfold sort_resolved. rewrite Hstr. simpl. auto.
Qed.

Lemma resolved_ok_strs (l : list value) : resolved_okb l = true -> strs_okb l = true.
Proof.
  unfold resolved_okb, strs_okb. intros H.
  apply andb_true_iff in H as [H Hn]. apply andb_true_iff in H as [Hs _].
  now rewrite Hs, Hn.
Qed.

(** ** [set_resolved] on a payload *)

Lemma dict_get_dict_update (k k' : key) (f : value -> value) (d : dict) :
  dict_get k' (dict_update k f d)
  = if key_eqb k k' then option_map f (dict_get k' d) else dict_get k' d.
Proof.
  induction d as [|[k0 v0] d IH]; simpl.
  - now destruct (key_eqb k k').
  - destruct (key_eqb k k0) eqn:E0; simpl.
    + apply key_eqb_eq in E0. subst k0.
      destruct (key_eqb k' k) eqn:E1.
      * apply key_eqb_eq in E1. subst k'. now rewrite key_eqb_refl.
      * rewrite IH. reflexivity.
    + destruct (key_eqb k' k0) eqn:E1.
      * apply key_eqb_eq in E1. subst k0. now rewrite E0.
      * exact IH.
Qed.

Lemma dict_get_dict_set (k : key) (v : value) (d : dict) :
  dict_get k (dict_set k v d) = Some v.
Proof.
  induction d as [|[k0 v0] d IH]; simpl.
  - now rewrite key_eqb_refl.
  - destruct (key_eqb k k0) eqn:E; simpl; rewrite E; auto.
Qed.

Lemma forallb_list_update {A : Type} (P : A -> bool) (g : A -> A) (n : nat) (l : list A) :
  (forall x, P x = true -> P (g x) = true) ->
  forallb P l = true -> forallb P (list_update n g l) = true.
Proof.
  intros Hg. revert n. induction l as [|x l IH]; intros n H; [now destruct n|].
  simpl in H. apply andb_true_iff in H as [Hx Hl].
  destruct n; simpl; rewrite ?Hx, ?Hl, ?Hg, ?IH; auto.
Qed.

Lemma forallb_dict_update (P : value -> bool) (h : value -> value) (k : key) (d : dict) :
  (forall x, P x = true -> P (h x) = true) ->
  forallb (fun kv => P (snd kv)) d = true ->
  forallb (fun kv => P (snd kv)) (dict_update k h d) = true.
Proof.
  intros Hh. induction d as [|[k0 v0] d IH]; intros H; [reflexivity|].
  simpl in H. apply andb_true_iff in H as [Hx Hl]. simpl.
  destruct (key_eqb k k0); simpl; rewrite ?Hx, ?Hh, IH; auto.
Qed.

Lemma set_resolved_ok (module_index : nat) (module_call_name : key) (l : list value)
    (file_data : value) :
  resolved_okb l = true ->
  payload_okb file_data = true ->
  payload_okb (set_resolved module_index module_call_name l file_data) = true.
Proof.
  intros Hl. destruct file_data as [ | | | | |d| | ]; try (intros; reflexivity).
  unfold set_resolved, payload_okb.
  rewrite dict_get_dict_update, key_eqb_refl.
  destruct (dict_get (KStr "module") d) as [[ | | | |calls| | | ]|]; simpl; auto.
  apply forallb_list_update.
  intros [ | | | | |c| | ]; auto.
  apply forallb_dict_update.
  intros [ | | | | |data| | ]; auto.
  intros _. unfold call_okb. now rewrite dict_get_dict_set.
Qed.

(** ** The payloads the parser holds keep their [__resolved__] lists in order *)

Lemma heap_ok_same (p p' : Parser) :
  loaded_files_map p' = loaded_files_map p -> heap_ok p -> heap_ok p'.
Proof.
  intros E H oid v Hv. apply (H oid v). unfold heap_get in *. now rewrite <- E.
Qed.

Lemma heap_get_heap_update (oid oid' : string) (f : value -> value) (p : Parser) :
  heap_get (heap_update oid f p) oid'
  = if String.eqb oid' oid then option_map f (heap_get p oid') else heap_get p oid'.
Proof.
  unfold heap_update. destruct (heap_get p oid) as [v|] eqn:E.
  - unfold heap_get at 1. simpl. rewrite assoc_assoc_set.
    destruct (String.eqb oid' oid) eqn:E'; [|reflexivity].
    apply String.eqb_eq in E'. subst oid'. now rewrite E.
  - destruct (String.eqb oid' oid) eqn:E'; [|reflexivity].
    apply String.eqb_eq in E'. subst oid'. now rewrite E.
Qed.

Lemma heap_update_ok (oid : string) (f : value -> value) (p : Parser) :
  (forall v, payload_okb v = true -> payload_okb (f v) = true) ->
  heap_ok p -> heap_ok (heap_update oid f p).
Proof.
  intros Hf H oid' v Hv. rewrite heap_get_heap_update in Hv.
  destruct (String.eqb oid' oid); [|exact (H _ _ Hv)].
  destruct (heap_get p oid') as [v0|] eqn:E; [|discriminate].
  injection Hv as <-. apply Hf. exact (H _ _ E).
Qed.

Lemma dict_get_In (k : key) (v : value) (d : dict) :
  dict_get k d = Some v -> exists k', In (k', v) d.
Proof.
  induction d as [|[k0 v0] d IH]; simpl; [discriminate|].
  destruct (key_eqb k k0).
  - intros H. injection H as ->. exists k0. now left.
  - intros H. destruct (IH H) as [k' Hk']. exists k'. now right.
Qed.

Lemma payload_okb_call (file_data x : value) (module_index : nat) (module_call_name : key) :
  payload_okb file_data = true ->
  call_data_of file_data module_index module_call_name = Some x ->
  call_okb x = true.
Proof.
  unfold payload_okb, call_data_of.
  destruct file_data as [ | | | | |d| | ]; try discriminate.
  destruct (dict_get (KStr "module") d) as [[ | | | |calls| | | ]|]; try discriminate.
  intros Hall. destruct (nth_error calls module_index) as [[ | | | | |c| | ]|] eqn:En;
    try discriminate.
  intros Hget. apply nth_error_In in En.
  rewrite forallb_forall in Hall. specialize (Hall _ En). simpl in Hall.
  destruct (dict_get_In _ _ _ Hget) as [k' Hk'].
  rewrite forallb_forall in Hall. exact (Hall _ Hk').
Qed.

Section HeapInvariant.
Variable w : World.
Hypothesis Hdecoded : decoded_ok w.
Hypothesis Hmerge : merge_ok w.

Lemma record_results_ok (to_parse : list DirEntry) :
  forall p res p',
    record_results (decoders w) to_parse p = (res, p') -> heap_ok p -> heap_ok p'.
Proof.
  induction to_parse as [|file r IH]; intros p res p' H Hp; simpl in H.
  - now injection H as _ <-.
  - destruct (_load_or_die_quietly (decoders w) (path file) [] true)
      as [result errs] eqn:E.
    match type of H with
    | (let '(rest, p3) := record_results _ r ?q in _) = _ =>
        destruct (record_results (decoders w) r q) as [rest p3] eqn:Er;
          assert (Hq : heap_ok q)
    end.
    + destruct (assoc (path file) (loaded_files_map p)) eqn:Ea.
      * eapply heap_ok_same; [|exact Hp]. reflexivity.
      * intros oid v Hv. unfold heap_get in Hv. simpl in Hv.
        destruct (assoc oid (loaded_files_map p)) as [x|] eqn:Eo.
        -- rewrite (assoc_app_l _ _ _ _ Eo) in Hv.
           apply (Hp oid v). unfold heap_get. now rewrite Eo.
        -- rewrite (assoc_app_None _ _ _ Eo) in Hv. simpl in Hv.
           destruct (String.eqb oid (path file)); [|discriminate].
           destruct result as [v'|]; [|discriminate]. injection Hv as <-.
           apply (Hdecoded (path file)). now rewrite E.
    + injection H as _ <-. exact (IH _ _ _ Er Hq).
Qed.

Lemma _load_files_triple (files : list DirEntry) :
  triple heap_ok (_load_files w files) (fun _ => True).
Proof.
  intros p p' r Hp H. unfold _load_files in H.
  destruct (split_cached p files) as [cached to_parse].
  destruct (record_results (decoders w) to_parse p) as [parsed q] eqn:E.
  injection H as <- <-. split; [|exact I].
  exact (record_results_ok _ _ _ _ E Hp).
Qed.

Lemma load_var_file_triple (file : DirEntry) (c : bool) :
  triple heap_ok (load_var_file w file c) (fun _ => True).
Proof.
  intros p p' r Hp H. destruct (load_var_file_state _ _ _ _ _ _ H) as [_ Hl].
  split; [exact (heap_ok_same _ _ Hl Hp)|]. now destruct r.
Qed.

Lemma modify_out_definitions_triple (f : list (string * string) -> list (string * string)) :
  triple heap_ok (modify (set_out_definitions f)) (fun _ => True).
Proof. apply triple_modify. intros p. now apply heap_ok_same. Qed.

Lemma register_file_triple (m : var_map) (fd : string * option value) :
  triple heap_ok (register_file m fd) (fun _ => True).
Proof.
  destruct fd as [file [v|]]; simpl; [|now apply triple_ret].
  destruct (truthy v); [|now apply triple_ret].
  eapply triple_bind; [apply modify_out_definitions_triple|].
  intros _ _. now apply triple_lift.
Qed.

Lemma load_dir_files_triple (directory : string) (env : list (string * string))
    (given : option dict) (vars_files excluded_paths : option (list string)) :
  triple heap_ok (load_dir_files w directory env given vars_files excluded_paths)
         (fun _ => True).
Proof.
  unfold load_dir_files.
  eapply triple_bind; [apply triple_lift; intros; exact I|]. intros entries _.
  eapply triple_bind; [apply _load_files_triple|]. intros files_to_data _.
  eapply triple_bind.
  { apply (triple_for_fold heap_ok (fun _ => True)); [|exact I].
    intros s x _. apply register_file_triple. }
  intros m1 _.
  eapply triple_bind.
  { instantiate (1 := fun _ => True).
    destruct (hcl_tfvars _); [|now apply triple_ret].
    eapply triple_bind; [apply load_var_file_triple|].
    intros data _. now apply triple_lift. }
  intros m3 _.
  eapply triple_bind.
  { instantiate (1 := fun _ => True).
    destruct (json_tfvars _); [|now apply triple_ret].
    eapply triple_bind; [apply load_var_file_triple|].
    intros data _. now apply triple_lift. }
  intros m4 _.
  eapply triple_bind; [apply _load_files_triple|]. intros auto_data' _.
  eapply triple_bind; [apply triple_lift; intros; exact I|]. intros m5 _.
  eapply triple_bind; [apply _load_files_triple|]. intros explicit_data' _.
  eapply triple_bind; [apply triple_lift; intros; exact I|]. intros m6 _.
  destruct given as [[|kv r]|]; try (now apply triple_ret).
  now apply triple_lift.
Qed.
End HeapInvariant.

Section ModulesInvariant.
Variable w : World.
Hypothesis Hdecoded : decoded_ok w.
Hypothesis Hmerge : merge_ok w.

Lemma modify_same_heap_triple (f : Parser -> Parser) :
  (forall p, loaded_files_map (f p) = loaded_files_map p) ->
  triple heap_ok (modify f) (fun _ => True).
Proof. intros Hf. apply triple_modify. intros p. apply heap_ok_same, Hf. Qed.

Lemma rewrite_key_triple (file : string) (module_index : nat)
    (s : list (string * string) * list value) (k : string) :
  strs_okb (snd s) = true ->
  triple heap_ok (rewrite_key file module_index s k)
         (fun s' => strs_okb (snd s') = true).
Proof.
  intros Hs. unfold rewrite_key. destruct s as [module_definitions resolved_loc_list].
  destruct (endswith k "]" || endswith file "]"); [now apply triple_ret|].
  eapply triple_bind; [apply modify_same_heap_triple; reflexivity|]. intros _ _.
  eapply triple_bind; [apply modify_same_heap_triple; reflexivity|]. intros _ _.
  apply triple_ret. simpl. now apply append_new_ok.
Qed.

Lemma merge_definitions_triple (b : list (string * string)) :
  forall a, triple heap_ok (merge_definitions w a b) (fun _ => True).
Proof.
  induction b as [|[k oid_b] b IH]; intros a; simpl.
  - now apply triple_ret.
  - destruct (assoc k a) as [oid_a|]; [|apply IH].
    eapply triple_bind; [apply triple_get|]. intros p Hp.
    eapply triple_bind; [|intros _ _; apply IH].
    instantiate (1 := fun _ => True).
    destruct (heap_get p oid_b) as [vb|] eqn:E; [|now apply triple_ret].
    apply triple_modify. intros q Hq. apply heap_update_ok; [|exact Hq].
    intros va Hva. apply Hmerge; [exact Hva | exact (Hp _ _ E)].
Qed.

Variable rec : string -> dict -> M unit.
Hypothesis Hrec : forall content_dir specified,
    triple heap_ok (rec content_dir specified) (fun _ => True).

Lemma load_module_content_triple (root_dir file oid : string) (module_index : nat)
    (module_call_name : key) (specified : dict) (source : string) (version : value)
    (s : list (string * string) * bool) :
  triple heap_ok
         (load_module_content rec w root_dir file oid module_index module_call_name
                              specified source version s)
         (fun _ => True).
Proof.
  unfold load_module_content.
  eapply triple_bind; [apply triple_lift; intros; exact I|]. intros content _.
  destruct (negb (loaded content)); [now apply triple_ret|].
  eapply triple_bind; [apply Hrec|]. intros _ _.
  eapply triple_bind; [apply triple_get|]. intros p Hp.
  destruct (filter _ (out_definitions p)) as [|kv0 rest] eqn:Ef; [now apply triple_ret|].
  eapply triple_bind.
  { instantiate (1 := fun l => strs_okb l = true).
    destruct (heap_get p oid) as [file_data|] eqn:Eh; [|now apply triple_ret].
    destruct (call_data_of file_data module_index module_call_name)
      as [[ | | | | |module_call_data| | ]|] eqn:Ec; try (now apply triple_ret).
    pose proof (payload_okb_call _ _ _ _ (Hp _ _ Eh) Ec) as Hcall.
    unfold call_okb in Hcall.
    destruct (dict_get (KStr RESOLVED_MODULE_ENTRY_NAME) module_call_data)
      as [[ | | | |l| | | ]|]; try (now apply triple_ret); try apply triple_raise.
    apply triple_ret. now apply resolved_ok_strs. }
  intros resolved0 H0.
  eapply triple_bind.
  { apply (triple_for_fold heap_ok (fun s' => strs_okb (snd s') = true)).
    - intros s' x Hs'. now apply rewrite_key_triple.
    - exact H0. }
  intros [module_definitions' resolved1] H1. simpl in H1.
  destruct (sort_resolved_ok w resolved1 H1) as [Hnone Hsorted].
  destruct (sort_resolved w resolved1) as [resolved2 failure].
  simpl in Hnone, Hsorted. subst failure.
  eapply triple_bind.
  { apply triple_modify. intros q Hq. apply heap_update_ok; [|exact Hq].
    intros v. now apply set_resolved_ok. }
  intros _ _.
  eapply triple_bind; [|intros a _; now apply triple_ret].
  instantiate (1 := fun _ => True).
  destruct (fst s); [now apply triple_ret | apply merge_definitions_triple].
Qed.

Lemma load_module_call_triple (root_dir : string) (ignore : bool) (file oid : string)
    (module_index : nat) (s : list (string * string) * bool) (module_call_name : key) :
  triple heap_ok
         (load_module_call rec w root_dir ignore file oid module_index s module_call_name)
         (fun _ => True).
Proof.
  unfold load_module_call.
  eapply triple_bind; [apply triple_get|]. intros p Hp.
  destruct (heap_get p oid) as [file_data|]; [|now apply triple_ret].
  destruct (call_data_of file_data module_index module_call_name)
    as [[ | | | | |module_call_data| | ]|]; try (now apply triple_ret).
  destruct (existsb _ _); [now apply triple_ret|].
  eapply triple_bind; [apply triple_lift; intros; exact I|]. intros specified _.
  destruct (gate_defers _ _ _); [now apply triple_ret|].
  eapply triple_bind; [apply modify_same_heap_triple; reflexivity|]. intros _ _.
  destruct (dict_get (KStr "source") module_call_data)
    as [[ | | | |[|[ | | |source| | | | ] l]| | | ]|]; try (now apply triple_ret).
  apply triple_try_or; [apply load_module_content_triple | exact I].
Qed.

Lemma load_file_modules_triple (root_dir : string) (ignore : bool)
    (s : list (string * string) * bool) (file : string) :
  triple heap_ok (load_file_modules rec w root_dir ignore s file) (fun _ => True).
Proof.
  unfold load_file_modules.
  destruct (negb (String.eqb (dirname file) root_dir)); [now apply triple_ret|].
  destruct (endswith file "]"); [now apply triple_ret|].
  eapply triple_bind; [apply triple_get|]. intros p Hp.
  destruct (assoc file (out_definitions p)) as [oid|]; [|now apply triple_ret].
  destruct (heap_get p oid) as [[ | | | | |d| | ]|];
    try (now apply triple_ret); try apply triple_raise.
  destruct (dict_get (KStr "module") d) as [[ | | | |[|c cs]| | | ]|];
    try (now apply triple_ret).
  apply (triple_for_fold heap_ok (fun _ => True)); [|exact I].
  intros s' [i call] _. simpl.
  destruct call as [ | | | | |module_call| | ]; try (now apply triple_ret).
  apply (triple_for_fold heap_ok (fun _ => True)); [|exact I].
  intros s0 n _. apply load_module_call_triple.
Qed.

Lemma _load_modules_triple (root_dir : string) (ignore : bool) :
  triple heap_ok (_load_modules rec w root_dir ignore) (fun _ => True).
Proof.
  unfold _load_modules.
  eapply triple_bind; [apply triple_get|]. intros p Hp.
  eapply triple_bind.
  { apply (triple_for_fold heap_ok (fun _ => True)); [|exact I].
    intros s x _. apply load_file_modules_triple. }
  intros s _.
  eapply triple_bind; [|intros _ _; now apply triple_ret].
  instantiate (1 := fun _ => True).
  destruct (fst s) as [|kv all]; [now apply triple_ret|].
  eapply triple_bind; [apply triple_get|]. intros p' Hp'.
  eapply triple_bind; [apply merge_definitions_triple|]. intros merged _.
  apply modify_same_heap_triple. reflexivity.
Qed.
End ModulesInvariant.

Lemma module_load_loop_triple (load : bool -> M bool) (passes : nat) :
  (forall force, triple heap_ok (load force) (fun _ => True)) ->
  forall force, triple heap_ok (module_load_loop passes force load) (fun _ => True).
Proof.
  intros Hload. induction passes as [|n IH]; intros force; simpl.
  - now apply triple_ret.
  - eapply triple_bind; [apply Hload|]. intros has_more _.
    destruct (negb has_more); [now apply triple_ret|].
    eapply triple_bind; [apply IH|]. intros rest _. now apply triple_ret.
Qed.

Lemma _internal_dir_load_triple (w : World) (env : list (string * string)) (depth : nat) :
  decoded_ok w -> merge_ok w ->
  forall directory given vars_files excluded_paths,
    triple heap_ok
           (_internal_dir_load depth w env directory given vars_files excluded_paths)
           (fun _ => True).
Proof.
  intros Hd Hm. induction depth as [|d IH];
    intros directory given vars_files excluded_paths.
  - apply triple_raise.
  - rewrite _internal_dir_load_S.
    eapply triple_bind; [now apply load_dir_files_triple|]. intros m _.
    apply module_load_loop_triple. intros force.
    apply _load_modules_triple; [exact Hm|].
    intros content_dir specified.
    eapply triple_bind; [apply IH|]. intros _ _. now apply triple_ret.
Qed.

Lemma parse_directory_triple (w : World) (env : list (string * string)) (depth : nat)
    (directory : string) (vars_files excluded_paths : option (list string)) :
  decoded_ok w -> merge_ok w ->
  triple heap_ok (parse_directory depth w env directory vars_files excluded_paths)
         (fun _ => True).
Proof.
  intros Hd Hm. unfold parse_directory.
  eapply triple_bind; [apply triple_modify; intros p; now apply heap_ok_same|]. intros _ _.
  eapply triple_bind; [apply triple_modify; intros p; now apply heap_ok_same|]. intros _ _.
  eapply triple_bind.
  { apply triple_for_each. intros sub_dir. unfold _check_process_dir.
    eapply triple_bind.
    { instantiate (1 := fun _ => True).
      eapply triple_bind; [apply triple_get|]. intros p Hp.
      destruct (in_strings _ _); [now apply triple_ret|].
      eapply triple_bind; [apply triple_modify; intros q; now apply heap_ok_same|].
      intros _ _. now apply triple_ret. }
    intros process _. destruct process; [|now apply triple_ret].
    eapply triple_bind; [now apply _internal_dir_load_triple|].
    intros _ _. now apply triple_ret. }
  intros _ _.
  eapply triple_bind; [apply triple_get|]. intros p Hp.
  apply triple_modify. intros q. now apply heap_ok_same.
Qed.

Lemma store_heap (p : Parser) (k : string) (v : value) :
  In (k, v) (store p) -> exists oid, heap_get p oid = Some v.
Proof.
  unfold store. rewrite in_flat_map. intros [[k' oid] [_ H]].
  destruct (heap_get p oid) as [v'|] eqn:E; [|destruct H].
  destruct H as [H|[]]. injection H as _ <-. now exists oid.
Qed.

Lemma resolved_okb_spec (l : list value) :
  resolved_okb l = true ->
  forallb is_str l = true
  /\ sortedb String.leb (str_values l) = true
  /\ NoDup (str_values l).
Proof.
  unfold resolved_okb. intros H.
  apply andb_true_iff in H as [H Hn]. apply andb_true_iff in H as [Hs Ho].
  repeat split; try assumption. now apply nodupb_NoDup.
Qed.

Lemma assoc_In {A : Type} (k : string) (a : A) (m : list (string * A)) :
  assoc k m = Some a -> In (k, a) m.
Proof.
  induction m as [|[k' a'] m IH]; simpl; [discriminate|].
  destruct (String.eqb k k') eqn:E.
  - apply String.eqb_eq in E. subst k'. intros H. injection H as ->. now left.
  - intros H. right. now apply IH.
Qed.

(** A world given by tables decodes payloads in order when the tables
    hold such payloads. *)
Lemma world_of_decoded_ok (dirs : list (string * list DirEntry))
    (hcl_files : list (string * hcl_payload)) (json_files : list (string * value))
    (module_dirs : list string) :
  forallb (fun fp => match validate_malformed_definitions (snd fp) with
                     | inr nm => payload_okb (payload_value (clean_bad_definitions nm))
                     | inl _ => true
                     end) hcl_files = true ->
  forallb (fun fv => payload_okb (snd fv)) json_files = true ->
  decoded_ok (world_of dirs hcl_files json_files module_dirs).
Proof.
  intros Hhcl Hjson f v. unfold _load_or_die_quietly. simpl.
  destruct (endswith (basename f) ".json").
  - destruct (assoc f json_files) as [x|] eqn:E; simpl; [|discriminate].
    intros H. injection H as <-. apply assoc_In in E.
    rewrite forallb_forall in Hjson. exact (Hjson _ E).
  - destruct (assoc f hcl_files) as [raw|] eqn:E; simpl; [|discriminate].
    apply assoc_In in E. rewrite forallb_forall in Hhcl. specialize (Hhcl _ E).
    simpl in Hhcl. destruct (validate_malformed_definitions raw); [discriminate|].
    simpl. intros H. now injection H as <-.
Qed.

Lemma world_of_merge_ok (dirs : list (string * list DirEntry))
    (hcl_files : list (string * hcl_payload)) (json_files : list (string * value))
    (module_dirs : list string) :
  merge_ok (world_of dirs hcl_files json_files module_dirs).
Proof. intros a b Ha _. exact Ha. Qed.

Lemma unresolved_world_decoded_ok : decoded_ok unresolved_world.
Proof. apply world_of_decoded_ok; reflexivity. Qed.

Lemma unresolved_world_merge_ok : merge_ok unresolved_world.
Proof. apply world_of_merge_ok. Qed.

Lemma heap_ok_new_parser : heap_ok new_parser.
Proof. intros oid v H. discriminate H. Qed.



(** ** Variable precedence *)

Lemma vm_get_vm_set (k k' : key) (b : value * string) (m : var_map) :
  vm_get k (vm_set k' b m) = if key_eqb k k' then Some b else vm_get k m.
Proof.
  induction m as [|[k0 b0] m IH]; simpl.
  - reflexivity.
  - destruct (key_eqb k' k0) eqn:E0; simpl.
    + apply key_eqb_eq in E0. subst k0. now destruct (key_eqb k k').
    + rewrite IH. destruct (key_eqb k k0) eqn:E1; [|reflexivity].
      apply key_eqb_eq in E1. subst k0.
      destruct (key_eqb k k') eqn:E2; [|reflexivity].
      apply key_eqb_eq in E2. subst k'. now rewrite key_eqb_refl in E0.
Qed.

Lemma key_eq_dec_aux (a b : key) : {a = b} + {a <> b}.
Proof.
  destruct (key_eqb a b) eqn:E.
  - left. now apply key_eqb_eq.
  - right. intros H. apply key_eqb_eq in H. congruence.
Qed.

(** A step of the precedence order overwrites the bindings of the names it
    sets, with its own origin, and leaves the others. *)
Lemma vm_update_overrides (f : value -> exn + value) (origin : string) (items : dict) :
  forall m m' k,
    vm_update f origin items m = inr m' ->
    ((forall v, ~ In (k, v) items) -> vm_get k m' = vm_get k m)
    /\ (forall v0, In (k, v0) items ->
                   exists v x, In (k, v) items /\ f v = inr x
                               /\ vm_get k m' = Some (x, origin)).
Proof.
  induction items as [|[k0 v0] items IH]; intros m m' k H; simpl in H.
  - injection H as <-. split; [reflexivity | intros v0 []].
  - destruct (f v0) as [e|x0] eqn:Ef; [discriminate|].
    destruct (IH _ _ k H) as [Hout Hin]. split.
    + intros Hk. rewrite Hout, vm_get_vm_set.
      * destruct (key_eqb k k0) eqn:E; [|reflexivity].
        apply key_eqb_eq in E. subst k0. exfalso. apply (Hk v0). now left.
      * intros v Hv. apply (Hk v). now right.
    + intros v1 Hv1.
      destruct (in_dec key_eq_dec_aux k (map fst items)) as [Hi|Hn].
      * apply in_map_iff in Hi as [[k2 v2] [Ek Hi]]. simpl in Ek. subst k2.
        destruct (Hin _ Hi) as [v [x [Hv [Hf Hg]]]].
        exists v, x. repeat split; auto. now right.
      * assert (Hnone : forall v, ~ In (k, v) items).
        { intros v Hv. apply Hn. apply in_map_iff. now exists (k, v). }
        destruct Hv1 as [E|Hv1]; [|now destruct (Hnone _ Hv1)].
        injection E as -> ->. exists v1, x0. repeat split; [now left | exact Ef|].
        now rewrite (Hout Hnone), vm_get_vm_set, key_eqb_refl.
Qed.

(** The directly specified overrides are the last step: a name they set is
    bound to one of their values, with origin ["manual specification"]. *)
Lemma specified_vars_win (w : World) (directory : string) (env : list (string * string))
    (specified : dict) (vars_files excluded_paths : option (list string))
    (p p' : Parser) (m : var_map) (k : key) (v0 : value) :
  load_dir_files w directory env (Some specified) vars_files excluded_paths p = (p', inr m) ->
  In (k, v0) specified ->
  exists v, In (k, v) specified /\ vm_get k m = Some (v, "manual specification").
Proof.
  intros H Hin. unfold load_dir_files in H.
  repeat (apply bind_inr in H as [? [? [_ H]]]).
  destruct specified as [|kv r]; [destruct Hin|].
  unfold lift in H. apply (f_equal snd) in H. cbn [snd] in H.
  destruct (proj2 (vm_update_overrides _ _ _ _ _ k H) v0 Hin) as [v [y [Hv [Hy Hg]]]].
  injection Hy as <-. eauto.
Qed.

(** C1 at the input of the scenario.  The binding of [v] that wins is the
    one of [a.auto.tfvars], with the path of that file for origin, and its
    value is the list [["a"]] that the decoder gives, not ["a"]; the value
    that [terraform.tfvars] sets is unwrapped by [_safe_index(v, 0)]. *)
Theorem auto_tfvars_binding_kept_wrapped :
  snd (load_dir_files precedence_world "/r" [("TF_VAR_v", "e")] None None None new_parser)
  = inr [(KStr "v", (VList [VStr "a"], "/r/a.auto.tfvars"))]
  /\ snd (load_dir_files tfvars_world "/r" [("TF_VAR_v", "e")] None None None new_parser)
     = inr [(KStr "v", (VStr "t", "/r/terraform.tfvars"))].
Proof. split; vm_compute; reflexivity. Qed.

(** ** Failures *)

(** Loading files never raises: a file that fails is recorded. *)
Lemma _load_files_returns (w : World) (files : list DirEntry) (p : Parser) :
  exists p' l, _load_files w files p = (p', inr l).
Proof.
  unfold _load_files. destruct (split_cached p files) as [cached to_parse].
  destruct (record_results (decoders w) to_parse p) as [parsed q]. eauto.
Qed.

(** The [try] statement around a module load never raises. *)
Lemma try_or_returns {A : Type} (m : M A) (dflt : A) (p : Parser) :
  exists p' a, try_or m dflt p = (p', inr a).
Proof. unfold try_or. destruct (m p) as [p' [e|a]]; eauto. Qed.

(** C7 at a failing input.  A file that does not decode is recorded and a
    module that the loader fails on is skipped, and the load goes on; but a
    [terraform.tfvars.json] that holds a JSON array makes [parse_directory]
    raise [AttributeError] outward, the directory being listed all right. *)
Theorem tfvars_json_array_raises_outward :
  snd (parse_directory 5 tfvars_array_world [] "/r" None None new_parser)
  = inl AttributeError
  /\ scandir tfvars_array_world "/r"
     = inr [file_entry "/r" "main.tf"; file_entry "/r" "terraform.tfvars.json"]
  /\ snd (parse_directory 5 failures_world [] "/r" None None new_parser) = inr tt
  /\ out_parsing_errors (fst (parse_directory 5 failures_world [] "/r" None None new_parser))
     = [("/r/broken.tf", DecodeError)]
  /\ map fst (store (fst (parse_directory 5 failures_world [] "/r" None None new_parser)))
     = ["/r/main.tf"].
Proof. repeat split; vm_compute; reflexivity. Qed.

(** * Further properties *)

(** ** TypeNormalizer *)

Lemma sorted_keys_In (k : key) (d : dict) : In k (sorted_keys d) <-> In k (map fst d).
Proof.
  unfold sorted_keys. destruct (all_first_type (map fst d)); [|tauto].
  apply sort_In.
Qed.

Lemma dict_get_None_keys (k : key) (d : dict) :
  dict_get k d = None <-> ~ In k (map fst d).
Proof.
  induction d as [|[k0 v0] d IH]; simpl; [tauto|].
  destruct (key_eqb k k0) eqn:E.
  - apply key_eqb_eq in E. subst k0. split; [discriminate | intros H; exfalso; auto].
  - rewrite IH. split.
    + intros H [H0|H0]; [subst; now rewrite key_eqb_refl in E | auto].
    + auto.
Qed.

Lemma dict_get_tabulate_None (f : key -> value) (k : key) (ks : list key) :
  ~ In k ks -> dict_get k (map (fun k' => (k', f k')) ks) = None.
Proof.
  intros H. apply dict_get_None_keys. rewrite map_map. simpl. now rewrite map_id.
Qed.

(** Reordering the keys changes no lookup. *)
Lemma dict_get_reorder (k : key) (d : dict) : dict_get k (reorder d) = dict_get k d.
Proof.
  unfold reorder. destruct (dict_get k d) as [v|] eqn:E.
  - assert (Hk : In k (sorted_keys d)).
    { apply sorted_keys_In.
      destruct (in_dec key_eq_dec_aux k (map fst d)) as [H|H]; [exact H|].
      apply dict_get_None_keys in H. congruence. }
    rewrite (dict_get_tabulate (fun k' => dict_item k' d) k _ Hk).
    unfold dict_item. now rewrite E.
  - apply dict_get_tabulate_None. rewrite sorted_keys_In.
    now apply dict_get_None_keys.
Qed.

Lemma dict_get_clean_attribute (k : key) (d : dict) :
  dict_get k (map clean_attribute d)
  = option_map (fun x => if key_eqb k (KStr "alias") then x else clean true x)
               (dict_get k d).
Proof.
  induction d as [|[k0 x0] d IH]; simpl; [reflexivity|].
  destruct (key_eqb k k0) eqn:E; [|exact IH].
  apply key_eqb_eq in E. now subst k0.
Qed.

(** Looking an attribute up in a normalised mapping gives the normalised
    attribute of the mapping: no key is lost or added, and the attribute
    [alias] is returned as it was. *)
Theorem clean_parser_types_lookup (conf : dict) (k : key) :
  dict_get k (_clean_parser_types conf)
  = option_map (fun x => if key_eqb k (KStr "alias") then x else clean true x)
               (dict_get k conf).
Proof.
  destruct conf as [|kv conf]; [reflexivity|].
  unfold _clean_parser_types. now rewrite dict_get_reorder, dict_get_clean_attribute.
Qed.

(** The keys of a normalised mapping are those of the mapping: sorted
    ascending when they all have the type of the first one, in their order
    otherwise. *)
Theorem clean_parser_types_keys (conf : dict) :
  Permutation (map fst conf) (map fst (_clean_parser_types conf))
  /\ if all_first_type (map fst conf)
     then sortedb key_leb (map fst (_clean_parser_types conf)) = true
     else map fst (_clean_parser_types conf) = map fst conf.
Proof.
  destruct conf as [|kv conf]; [split; [constructor | reflexivity]|].
  unfold _clean_parser_types.
  rewrite map_fst_reorder, sorted_keys_clean_attribute. unfold sorted_keys.
  destruct (all_first_type (map fst (kv :: conf))).
  - split; [apply sort_perm | apply (sort_sorted key_leb key_leb_total)].
  - split; reflexivity.
Qed.

Lemma length_filter_str_values (l : list value) :
  List.length (filter (fun v => negb (is_str v)) l) + List.length (str_values l)
  = List.length l.
Proof.
  induction l as [|[ | | |s| | | | ] l IH]; simpl; lia.
Qed.

Lemma forallb_filter_self {A : Type} (f : A -> bool) (l : list A) :
  forallb f (filter f l) = true.
Proof.
  induction l as [|x l IH]; simpl; [reflexivity|].
  destruct (f x) eqn:E; simpl; rewrite ?E; auto.
Qed.

(** A normalised list has the length of the list, and is made of its
    elements that are not strings followed by its strings in ascending
    order. *)
Theorem clean_parser_types_lst_shape (values : list value) :
  List.length (_clean_parser_types_lst values) = List.length values
  /\ exists others strs,
      _clean_parser_types_lst values = others ++ map VStr strs
      /\ forallb (fun v => negb (is_str v)) others = true
      /\ sortedb String.leb strs = true.
Proof.
  unfold _clean_parser_types_lst, partition_strs. split.
  - rewrite length_app, length_map.
    rewrite <- (Permutation_length (sort_perm String.leb _)).
    rewrite length_filter_str_values. apply length_map.
  - eexists _, _. split; [reflexivity|]. split.
    + apply forallb_filter_self.
    + apply (sort_sorted String.leb string_leb_total).
Qed.

Lemma clean_true_not_tree (v : value) :
  match clean true v with VTree _ => False | _ => True end.
Proof.
  destruct v; simpl; auto.
  destruct (String.eqb s "true"); [exact I|]. now destruct (String.eqb s "false").
Qed.

Lemma dict_get_In_key (k : key) (v : value) (d : dict) :
  dict_get k d = Some v -> In (k, v) d.
Proof.
  induction d as [|[k0 v0] d IH]; simpl; [discriminate|].
  destruct (key_eqb k k0) eqn:E.
  - apply key_eqb_eq in E. subst k0. intros H. injection H as ->. now left.
  - intros H. right. now apply IH.
Qed.

Lemma clean_canonical (v : value) : forall b, canonical (clean b v) = true.
Proof.
  induction v as [ | b0 | z | s | l IH | d IH | l IH | body ]
    using value_nested_ind; intros b; try reflexivity.
  - simpl. destruct (String.eqb s "true") eqn:E1; [reflexivity|].
    destruct (String.eqb s "false") eqn:E2; [reflexivity|].
    simpl. now rewrite E1, E2.
  - simpl. apply forallb_forall. intros x Hx.
    apply In_partition_strs, in_map_iff in Hx. destruct Hx as [y [<- Hy]].
    rewrite Forall_forall in IH. now apply IH.
  - rewrite clean_VDict. simpl. apply forallb_forall. intros [k x] Hkx.
    unfold reorder in Hkx. apply in_map_iff in Hkx as [k' [E _]].
    injection E as -> <-.
    destruct (key_eqb k (KStr "alias")) eqn:Ea; [reflexivity|]. simpl.
    unfold dict_item. rewrite dict_get_clean_attribute, Ea.
    destruct (dict_get k d) as [x0|] eqn:Eg; simpl; [|reflexivity].
    apply dict_get_In_key in Eg. rewrite Forall_forall in IH.
    specialize (IH _ Eg true). simpl in IH.
    pose proof (clean_true_not_tree x0) as Ht.
    destruct (clean true x0); auto; contradiction.
  - simpl. apply forallb_forall. intros x Hx.
    apply In_partition_strs, in_map_iff in Hx. destruct Hx as [y [<- Hy]].
    rewrite Forall_forall in IH. now apply IH.
  - now destruct b.
Qed.

(** The normaliser leaves, at any depth outside the attributes named
    [alias], no set, no string ["true"] or ["false"], and no [Tree] for the
    attribute of a mapping. *)
Theorem clean_parser_types_canonical (conf : dict) (values : list value) :
  canonical (VDict (_clean_parser_types conf)) = true
  /\ canonical (VList (_clean_parser_types_lst values)) = true.
Proof.
  split.
  - rewrite _clean_parser_types_clean. apply clean_canonical.
  - rewrite (_clean_parser_types_lst_clean false). apply clean_canonical.
Qed.

(** ** RawParser *)

Lemma valid_blocks_all (l : list value) :
  Forall (fun b => _is_valid_block b = inr true) l -> valid_blocks l = inr l.
Proof.
  induction 1 as [|b l Hb _ IH]; simpl; [reflexivity|]. now rewrite Hb, IH.
Qed.

Lemma valid_blocks_idem (blocks out : list value) :
  valid_blocks blocks = inr out -> valid_blocks out = inr out.
Proof.
  intros H. apply valid_blocks_all. apply Forall_forall. intros b Hb.
  now apply (valid_blocks_kept _ _ b H) in Hb.
Qed.

Lemma clean_bad_definitions_idem (x : hcl_payload) :
  clean_bad_definitions (clean_bad_definitions x) = clean_bad_definitions x.
Proof.
  unfold clean_bad_definitions. rewrite map_map. apply map_ext.
  intros [bt defs]. f_equal.
  induction defs as [|d defs IH]; simpl; [reflexivity|].
  destruct (is_good_block_type bt || _) eqn:E; simpl; rewrite ?E, IH; reflexivity.
Qed.

(** Both filters of the raw parser are idempotent: a payload that went
    through block validation passes it unchanged, and so for the cleanup of
    bad definitions. *)
Theorem raw_filters_idempotent :
  (forall raw_data out : hcl_payload,
      validate_malformed_definitions raw_data = inr out ->
      validate_malformed_definitions out = inr out)
  /\ (forall x : hcl_payload,
         clean_bad_definitions (clean_bad_definitions x) = clean_bad_definitions x).
Proof.
  split; [|apply clean_bad_definitions_idem].
  induction raw_data as [|[bt blocks] r IH]; intros out H; simpl in H.
  - now injection H as <-.
  - destruct (valid_blocks blocks) as [e|blocks'] eqn:Eb; [discriminate|].
    destruct (validate_malformed_definitions r) as [e|r'] eqn:Er; [discriminate|].
    injection H as <-. simpl.
    now rewrite (valid_blocks_idem _ _ Eb), (IH _ eq_refl).
Qed.

Lemma raw_filters_idempotent_witness :
  validate_malformed_definitions [("resource", [VDict [(KStr "a", VDict [])]; VStr "t"])]
  = inr [("resource", [VDict [(KStr "a", VDict [])]; VStr "t"])].
Proof.
  exact (proj1 raw_filters_idempotent
               [("resource", [VDict []; VDict [(KStr "a", VDict [])]; VStr "t"])]
               [("resource", [VDict [(KStr "a", VDict [])]; VStr "t"])] eq_refl).
Defined.

Lemma In_clean_bad_definitions (x : hcl_payload) (bt : string) (blocks : list value) :
  In (bt, blocks) (clean_bad_definitions x) ->
  exists blocks0,
    In (bt, blocks0) x
    /\ blocks = filter (fun definition =>
                          is_good_block_type bt
                          || match definition with
                             | VDict d => Nat.eqb (List.length d) 1
                             | _ => true
                             end) blocks0.
Proof.
  unfold clean_bad_definitions. rewrite in_map_iff.
  intros [[bt0 blocks0] [E Hin]]. injection E as -> <-. eauto.
Qed.



Lemma assoc_errors_set (k f : string) (e : exn) (errs : errors) :
  assoc k (errors_set f e errs) = if String.eqb k f then Some e else assoc k errs.
Proof.
  induction errs as [|[g e'] errs IH]; simpl.
  - reflexivity.
  - destruct (String.eqb f g) eqn:E; simpl.
    + apply String.eqb_eq in E. subst g. now destruct (String.eqb k f).
    + rewrite IH. destruct (String.eqb k g) eqn:E'; [|reflexivity].
      apply String.eqb_eq in E'. subst g. now rewrite String.eqb_sym, E.
Qed.


(** ** Paths *)

Lemma split_last_slash_spec (s : list ascii) :
  forall head cur,
    no_slash cur ->
    let '(h, t) := split_last_slash s head cur in
    h ++ t = head ++ rev cur ++ s
    /\ no_slash t
    /\ (h = head \/ exists h0, h = h0 ++ [slash]).
Proof.
  induction s as [|c s IH]; intros head cur Hcur; simpl.
  - rewrite app_nil_r. repeat split; auto.
    unfold no_slash in *. now apply Forall_rev.
  - destruct (Ascii.eqb c slash) eqn:E.
    + apply Ascii.eqb_eq in E. subst c.
      specialize (IH (head ++ rev cur ++ [slash]) [] (Forall_nil _)).
      destruct (split_last_slash s (head ++ rev cur ++ [slash]) []) as [h t].
      destruct IH as [Happ [Ht Hh]]. repeat split; auto.
      * rewrite Happ. simpl. now rewrite <- !app_assoc.
      * right. destruct Hh as [->|[h0 ->]]; [|eauto].
        exists (head ++ rev cur). now rewrite <- app_assoc.
    + specialize (IH head (c :: cur) (Forall_cons _ E Hcur)).
      destruct (split_last_slash s head (c :: cur)) as [h t].
      destruct IH as [Happ [Ht Hh]]. repeat split; auto.
      rewrite Happ. simpl. now rewrite <- !app_assoc.
Qed.

Lemma is_prefix_app_slash (p a b : list ascii) :
  no_slash p ->
  (b = [] \/ exists b', b = slash :: b') ->
  is_prefix p (a ++ b) = true -> is_prefix p a = true.
Proof.
  intros Hp Hb. revert a. induction Hp as [|c p Hc Hp IH]; intros a H; [reflexivity|].
  destruct a as [|x a]; simpl in *.
  - destruct Hb as [->|[b' ->]]; [discriminate|]. simpl in H.
    apply andb_true_iff in H as [H _]. apply Ascii.eqb_eq in H. subst c.
    rewrite Ascii.eqb_refl in Hc. discriminate.
  - apply andb_true_iff in H as [H1 H2]. rewrite H1. simpl. now apply IH.
Qed.

(** A path that ends in a suffix without [/] has a base name that ends in
    it. *)
Lemma endswith_basename (p suffix : string) :
  no_slash (list_ascii_of_string suffix) ->
  endswith p suffix = true -> endswith (basename p) suffix = true.
Proof.
  intros Hs H. unfold endswith, basename, path_split in *.
  pose proof (split_last_slash_spec (list_ascii_of_string p) [] [] (Forall_nil _)) as S.
  destruct (split_last_slash (list_ascii_of_string p) [] []) as [h t].
  destruct S as [Happ [Ht Hh]]. simpl in Happ. simpl.
  rewrite list_ascii_of_string_of_list_ascii.
  rewrite <- Happ, rev_app_distr in H.
  apply (is_prefix_app_slash _ _ (rev h)); [now apply Forall_rev| |exact H].
  destruct Hh as [->|[h0 ->]]; [now left|].
  right. rewrite rev_app_distr. simpl. eauto.
Qed.

Lemma is_prefix_app_l (a b l : list ascii) :
  is_prefix (a ++ b) l = true -> is_prefix a l = true.
Proof.
  revert l. induction a as [|x a IH]; intros l H; [reflexivity|].
  destruct l as [|y l]; [discriminate H|]. simpl in *.
  apply andb_true_iff in H as [H1 H2]. rewrite H1. simpl. now apply IH.
Qed.

Lemma is_prefix_trans_json (l : list ascii) :
  is_prefix (rev (list_ascii_of_string ".tf.json")) l = true ->
  is_prefix (rev (list_ascii_of_string ".json")) l = true.
Proof.
  change (rev (list_ascii_of_string ".tf.json"))
    with (rev (list_ascii_of_string ".json") ++ rev (list_ascii_of_string ".tf")).
  apply is_prefix_app_l.
Qed.

(** ** [parse_file] *)

(** [parse_file] on a [.tf.json] file: the JSON document is decoded and,
    when it is a mapping that is not empty, it is serialised and normalised
    with no block filtered out; the sink is left as it was. *)
Theorem parse_file_tf_json (dec : Decoders) (serialize : value -> exn + value)
    (file : string) (sink : option errors) (kv kv' : key * value) (d d' : dict) :
  endswith file ".tf.json" = true ->
  json_load dec file = inr (VDict (kv :: d)) ->
  serialize (VDict (kv :: d)) = inr (VDict (kv' :: d')) ->
  parse_file dec serialize file sink
  = (inr (Some (VDict (_clean_parser_types (kv' :: d')))), sink).
Proof.
  intros Hext Hjson Hser. unfold parse_file. rewrite Hext, orb_true_r. simpl.
  assert (Hbase : endswith (basename file) ".json" = true).
  { apply endswith_basename.
    - repeat constructor.
    - now apply is_prefix_trans_json. }
  assert (Hload : forall errs, _load_or_die_quietly dec file errs true
                               = (Some (VDict (kv :: d)), errs)).
  { intros errs. unfold _load_or_die_quietly. now rewrite Hbase, Hjson. }
  unfold load_with_optional_sink. destruct sink as [errs|]; rewrite Hload; simpl;
    now rewrite Hser.
Qed.

Lemma parse_file_tf_json_witness :
  parse_file decoders_bad_blocks inr "/r/main.tf.json" (Some [])
  = (inr (Some (VDict (_clean_parser_types [(KStr "resource", VList two_bad_blocks)]))),
     Some []).
Proof.
  exact (parse_file_tf_json decoders_bad_blocks inr "/r/main.tf.json" (Some [])
           (KStr "resource", VList two_bad_blocks) (KStr "resource", VList two_bad_blocks)
           [] [] eq_refl eq_refl eq_refl).
Defined.

(** [parse_file] called without a sink, on a file of an accepted extension
    that fails to load, raises [TypeError]: the handler stores the exception
    in [None]. *)
Theorem parse_file_without_sink_raises (dec : Decoders) (serialize : value -> exn + value)
    (file : string) :
  endswith file ".tf" || endswith file ".tf.json" || endswith file ".hcl" = true ->
  fst (_load_or_die_quietly dec file [] true) = None ->
  parse_file dec serialize file None = (inl TypeError, None).
Proof.
  intros Hext Hload. unfold parse_file, load_with_optional_sink. rewrite Hext.
  destruct (_load_or_die_quietly dec file [] true) as [[v|] errs]; [discriminate|].
  reflexivity.
Qed.

Lemma parse_file_without_sink_raises_witness :
  parse_file (decoders unresolved_world) inr "/r/absent.tf" None = (inl TypeError, None).
Proof.
  exact (parse_file_without_sink_raises (decoders unresolved_world) inr "/r/absent.tf"
           eq_refl eq_refl).
Defined.

(** ** File discovery *)

Lemma scan_entry_lists (vars_files : option (list string)) (sc : Scan) (file : DirEntry) :
  auto_vars_files (scan_entry vars_files sc file)
  = auto_vars_files sc ++ (if is_auto_var_file file then [file] else [])
  /\ explicit_var_files (scan_entry vars_files sc file)
     = explicit_var_files sc ++ (if is_explicit_file vars_files file then [file] else []).
Proof.
  unfold scan_entry, is_auto_var_file, is_explicit_file, is_tfvars_name.
  destruct (is_file file) as [e|[|]]; try (now rewrite !app_nil_r).
  destruct (String.eqb (name file) "terraform.tfvars.json"); [now rewrite !app_nil_r|].
  destruct (String.eqb (name file) "terraform.tfvars"); [now rewrite !app_nil_r|].
  destruct (endswith (name file) ".auto.tfvars.json" || endswith (name file) ".auto.tfvars");
    [simpl; now rewrite !app_nil_r|].
  destruct (is_explicit_var_file vars_files (path file)); [simpl; now rewrite !app_nil_r|].
  destruct (endswith (name file) ".tf" || endswith (name file) ".hcl");
    simpl; now rewrite !app_nil_r.
Qed.

Lemma scan_fold_lists (vars_files : option (list string)) (dir_contents : list DirEntry) :
  forall sc,
    auto_vars_files (fold_left (scan_entry vars_files) dir_contents sc)
    = auto_vars_files sc ++ filter is_auto_var_file dir_contents
    /\ explicit_var_files (fold_left (scan_entry vars_files) dir_contents sc)
       = explicit_var_files sc ++ filter (is_explicit_file vars_files) dir_contents.
Proof.
  induction dir_contents as [|f l IH]; intros sc; simpl; [now rewrite !app_nil_r|].
  destruct (IH (scan_entry vars_files sc f)) as [-> ->].
  destruct (scan_entry_lists vars_files sc f) as [-> ->].
  destruct (is_auto_var_file f), (is_explicit_file vars_files f);
    rewrite <- ?app_assoc, ?app_nil_r; auto.
Qed.

(** Stage 1 sorts the regular files of a directory into exclusive kinds:
    the [*.auto.tfvars] files, the explicit var-files and the resource
    files, each list in the order of the listing.  A file named in the
    var-files is not a resource file, whatever its extension, and
    [terraform.tfvars] and [terraform.tfvars.json] are of none of the three
    kinds. *)
Theorem scan_directory_kinds (vars_files : option (list string))
    (dir_contents : list DirEntry) :
  auto_vars_files (scan_directory vars_files dir_contents)
  = filter is_auto_var_file dir_contents
  /\ explicit_var_files (scan_directory vars_files dir_contents)
     = filter (is_explicit_file vars_files) dir_contents
  /\ tf_files_to_load (scan_directory vars_files dir_contents)
     = filter (is_resource_file vars_files) dir_contents
  /\ forall file,
      is_auto_var_file file && is_explicit_file vars_files file = false
      /\ is_auto_var_file file && is_resource_file vars_files file = false
      /\ is_explicit_file vars_files file && is_resource_file vars_files file = false
      /\ (if is_explicit_var_file vars_files (path file)
          then is_resource_file vars_files file = false else True)
      /\ (if is_tfvars_name file
          then is_auto_var_file file = false
               /\ is_explicit_file vars_files file = false
               /\ is_resource_file vars_files file = false
          else True).
Proof.
  destruct (scan_fold_lists vars_files dir_contents empty_scan) as [Ha He].
  repeat split; try assumption.
  - apply scan_directory_tf_files.
  - unfold is_auto_var_file, is_explicit_file.
    destruct (is_file file) as [e|[|]]; try reflexivity.
    destruct (is_tfvars_name file); [reflexivity|]. simpl.
    now destruct (endswith _ _ || endswith _ _).
  - unfold is_auto_var_file, is_resource_file, is_tfvars_name.
    destruct (is_file file) as [e|[|]]; try reflexivity.
    destruct (String.eqb (name file) "terraform.tfvars.json"); [reflexivity|].
    destruct (String.eqb (name file) "terraform.tfvars"); [reflexivity|]. simpl.
    now destruct (endswith _ ".auto.tfvars.json" || endswith _ ".auto.tfvars").
  - unfold is_explicit_file, is_resource_file, is_tfvars_name.
    destruct (is_file file) as [e|[|]]; try reflexivity.
    destruct (String.eqb (name file) "terraform.tfvars.json"); [reflexivity|].
    destruct (String.eqb (name file) "terraform.tfvars"); [reflexivity|]. simpl.
    destruct (endswith _ ".auto.tfvars.json" || endswith _ ".auto.tfvars"); [reflexivity|].
    simpl. now destruct (is_explicit_var_file vars_files (path file)).
  - unfold is_resource_file.
    destruct (is_explicit_var_file vars_files (path file)); [|exact I].
    destruct (is_file file) as [e|[|]]; try reflexivity.
    simpl. now rewrite !andb_false_r.
  - unfold is_auto_var_file, is_explicit_file, is_resource_file, is_tfvars_name.
    destruct (String.eqb (name file) "terraform.tfvars.json");
      [simpl; destruct (is_file file) as [e|[|]]; auto|].
    destruct (String.eqb (name file) "terraform.tfvars");
      [simpl; destruct (is_file file) as [e|[|]]; auto | exact I].
Qed.

(** ** The unresolved-parameter gate *)

Lemma forallb_flat_map {A B : Type} (f : B -> bool) (g : A -> list B) (l : list A) :
  forallb f (flat_map g l) = forallb (fun x => forallb f (g x)) l.
Proof.
  induction l as [|x l IH]; simpl; [reflexivity|]. now rewrite forallb_app, IH.
Qed.

Lemma forallb_ext_in {A : Type} (f g : A -> bool) (l : list A) :
  (forall x, In x l -> f x = g x) -> forallb f l = forallb g l.
Proof.
  induction l as [|x l IH]; intros H; simpl; [reflexivity|].
  rewrite (H x (or_introl eq_refl)), IH; [reflexivity|].
  intros y Hy. apply H. now right.
Qed.

(** A value is acceptable as the parameter of a module exactly when none of
    the strings in it (elements of lists and sets, keys and values of
    mappings, at any depth) holds a simple variable reference. *)
Theorem acceptable_iff_no_reference (simple_var : string -> bool) (v : value) :
  is_acceptable_module_param simple_var v
  = forallb (fun s => negb (simple_var s)) (strings_of v).
Proof.
  induction v as [ | b | z | s | l IH | d IH | l IH | body ]
    using value_nested_ind; simpl; try reflexivity.
  - now rewrite andb_true_r.
  - rewrite forallb_flat_map. apply forallb_ext_in. now apply Forall_forall.
  - rewrite forallb_flat_map. apply forallb_ext_in.
    intros [k x] Hkx. rewrite Forall_forall in IH. specialize (IH _ Hkx). simpl in IH.
    rewrite forallb_app, IH. destruct k; simpl; now rewrite ?andb_true_r.
  - rewrite forallb_flat_map. apply forallb_ext_in. now apply Forall_forall.
Qed.

(** The parameters passed to a module: [source] and [version] are never
    among them, and every other attribute of the call is passed under its
    name, a list being replaced by its first element.  Building them fails
    only with [IndexError], on an attribute that is an empty list. *)
Theorem module_specified_vars_spec (module_call_data : dict) :
  match module_specified_vars module_call_data with
  | inr specified =>
      dict_get (KStr "source") specified = None
      /\ dict_get (KStr "version") specified = None
      /\ forall k,
          key_eqb k (KStr "source") || key_eqb k (KStr "version") = false ->
          dict_get k specified = option_map unwrap (dict_get k module_call_data)
  | inl e => e = IndexError /\ exists k, In (k, VList []) module_call_data
  end.
Proof.
  induction module_call_data as [|[k0 v0] d IH]; simpl.
  - repeat split.
  - destruct (key_eqb k0 (KStr "source") || key_eqb k0 (KStr "version")) eqn:E0.
    + destruct (module_specified_vars d) as [e|sv].
      * destruct IH as [-> [k Hk]]. split; [reflexivity|]. exists k. now right.
      * destruct IH as [Hs [Hv Hk]]. repeat split; try assumption.
        intros k Ek. rewrite (Hk k Ek).
        destruct (key_eqb k k0) eqn:E; [|reflexivity].
        apply key_eqb_eq in E. subst k0. congruence.
    + assert (Hres : forall x,
                 match bind_exn (module_specified_vars d) (fun r' => inr ((k0, x) :: r')) with
                 | inr specified =>
                     dict_get (KStr "source") specified = None
                     /\ dict_get (KStr "version") specified = None
                     /\ forall k,
                         key_eqb k (KStr "source") || key_eqb k (KStr "version") = false ->
                         dict_get k specified
                         = if key_eqb k k0 then Some x else option_map unwrap (dict_get k d)
                 | inl e => e = IndexError /\ exists k, In (k, VList []) ((k0, v0) :: d)
                 end).
      { intros x. destruct (module_specified_vars d) as [e|sv]; unfold bind_exn; cbn [dict_get].
        - destruct IH as [-> [k Hk]]. split; [reflexivity|]. exists k. now right.
        - destruct IH as [Hs [Hv Hk]].
          apply orb_false_iff in E0 as [E1 E2].
          assert (S1 : key_eqb (KStr "source") k0 = false).
          { destruct (key_eqb (KStr "source") k0) eqn:E; [|reflexivity].
            apply key_eqb_eq in E. subst k0. now rewrite key_eqb_refl in E1. }
          assert (S2 : key_eqb (KStr "version") k0 = false).
          { destruct (key_eqb (KStr "version") k0) eqn:E; [|reflexivity].
            apply key_eqb_eq in E. subst k0. now rewrite key_eqb_refl in E2. }
          rewrite S1, S2. repeat split; try assumption.
          intros k Ek. destruct (key_eqb k k0); [reflexivity | now apply Hk]. }
      destruct v0 as [ | | | |[|x l]| | | ];
        try (specialize (Hres v0); subst v0);
        try (match goal with
             | |- context [bind_exn _ (fun r' => inr ((k0, ?y) :: r'))] =>
                 specialize (Hres y);
                 destruct (bind_exn (module_specified_vars d)
                                    (fun r' => inr ((k0, y) :: r'))) as [e|sv];
                 [exact Hres|];
                 destruct Hres as [Hs [Hv Hk]]; repeat split; try assumption;
                 intros k Ek; rewrite (Hk k Ek); now destruct (key_eqb k k0)
             end).
      split; [reflexivity|]. exists k0. now left.
Qed.

(** ** Levels of files *)

Lemma split_head_Some (PREFIX key : string) :
  PREFIX <> ""%string -> split_head PREFIX key = Some (key_head PREFIX key).
Proof.
  intros H. unfold split_head, key_head.
  destruct (String.eqb PREFIX "") eqn:E; [|reflexivity].
  apply String.eqb_eq in E. contradiction.
Qed.

Lemma classify_spec (PREFIX : string) (evaluated_files : list string) :
  PREFIX <> ""%string ->
  forall unevaluated_files next_level unevaluated do_not_eval_yet,
    classify PREFIX evaluated_files unevaluated_files (next_level, unevaluated, do_not_eval_yet)
    = Some (next_level ++ filter (found_in evaluated_files) unevaluated_files,
            unevaluated ++ filter (fun k => negb (found_in evaluated_files k)) unevaluated_files,
            do_not_eval_yet
              ++ map (key_head PREFIX)
                   (filter (fun k => negb (found_in evaluated_files k)) unevaluated_files)).
Proof.
  intros HP. induction unevaluated_files as [|key r IH]; intros n u d; simpl.
  - now rewrite !app_nil_r.
  - destruct (found_in evaluated_files key); simpl.
    + rewrite IH. now rewrite <- app_assoc.
    + rewrite (split_head_Some _ _ HP), IH. now rewrite <- !app_assoc.
Qed.

Lemma move_to_uneval_spec (PREFIX : string) (do_not_eval_yet next_level : list string) :
  PREFIX <> ""%string ->
  move_to_uneval PREFIX do_not_eval_yet next_level
  = Some (filter (fun k => in_strings (key_head PREFIX k) do_not_eval_yet) next_level).
Proof.
  intros HP. induction next_level as [|k r IH]; simpl; [reflexivity|].
  now rewrite (split_head_Some _ _ HP), IH.
Qed.

Lemma remove_first_app (k : string) (pre r : list string) :
  (forall y, In y pre -> y <> k) ->
  remove_first k (pre ++ k :: r) = Some (pre ++ r).
Proof.
  induction pre as [|x pre IH]; intros H; simpl.
  - now rewrite String.eqb_refl.
  - destruct (String.eqb x k) eqn:E.
    + apply String.eqb_eq in E. exfalso. apply (H x); [now left | exact E].
    + rewrite IH; [reflexivity|]. intros y Hy. apply H. now right.
Qed.

Lemma move_loop_filter (P : string -> bool) (l : list string) :
  forall pre unevaluated,
    (forall y, In y pre -> P y = false) ->
    move_loop (filter P l) (pre ++ l) unevaluated
    = Some (pre ++ filter (fun k => negb (P k)) l, unevaluated ++ filter P l).
Proof.
  induction l as [|x r IH]; intros pre u Hpre; simpl.
  - now rewrite !app_nil_r.
  - destruct (P x) eqn:Px; simpl.
    + rewrite remove_first_app.
      * rewrite (IH pre _ Hpre). now rewrite <- app_assoc.
      * intros y Hy ->. rewrite (Hpre _ Hy) in Px. discriminate.
    + change (pre ++ x :: r) with (pre ++ [x] ++ r). rewrite app_assoc.
      rewrite IH.
      * now rewrite <- app_assoc.
      * intros y Hy. apply in_app_or in Hy as [Hy|[<-|[]]]; [now apply Hpre | exact Px].
Qed.

Lemma filter_filter {A : Type} (f g : A -> bool) (l : list A) :
  filter f (filter g l) = filter (fun x => g x && f x) l.
Proof.
  induction l as [|x l IH]; simpl; [reflexivity|].
  destruct (g x); simpl; [destruct (f x)|]; now rewrite ?IH.
Qed.

(** With a separator that is not empty, [get_next_vertices] returns, both in
    the order of [unevaluated_files]: as the next level, the keys in which
    an evaluated file occurs and whose head (the part before the separator)
    is not the head of a key in which none occurs; as unevaluated, the keys
    in which none occurs, followed by the keys held back for their head. *)
Theorem get_next_vertices_levels (PREFIX : string)
    (evaluated_files unevaluated_files : list string) :
  PREFIX <> ""%string ->
  get_next_vertices PREFIX evaluated_files unevaluated_files
  = Some (filter (fun k => found_in evaluated_files k
                           && negb (held_back PREFIX evaluated_files unevaluated_files k))
                 unevaluated_files,
          filter (fun k => negb (found_in evaluated_files k)) unevaluated_files
          ++ filter (fun k => found_in evaluated_files k
                              && held_back PREFIX evaluated_files unevaluated_files k)
               unevaluated_files).
Proof.
  intros HP. unfold get_next_vertices.
  rewrite (classify_spec _ _ HP). simpl.
  rewrite (move_to_uneval_spec _ _ _ HP).
  fold (held_back PREFIX evaluated_files unevaluated_files).
  rewrite (move_loop_filter (held_back PREFIX evaluated_files unevaluated_files)
             (filter (found_in evaluated_files) unevaluated_files) [] _ (fun y H => match H with end)).
  simpl. now rewrite !filter_filter.
Qed.

Lemma get_next_vertices_levels_witness :
  get_next_vertices "([{" ["a.tf"] ["a.tf([{b.tf"; "c.tf"; "c.tf([{a.tf"]
  = Some ([ "a.tf([{b.tf" ], ["c.tf"; "c.tf([{a.tf"]).
Proof.
  rewrite (get_next_vertices_levels "([{" ["a.tf"] ["a.tf([{b.tf"; "c.tf"; "c.tf([{a.tf"]).
  - reflexivity.
  - discriminate.
Defined.

Lemma filter_split_perm {A : Type} (f : A -> bool) (l : list A) :
  Permutation (filter f l ++ filter (fun x => negb (f x)) l) l.
Proof.
  induction l as [|x l IH]; simpl; [constructor|].
  destruct (f x); simpl.
  - now constructor.
  - apply Permutation_sym. apply Permutation_cons_app. now apply Permutation_sym.
Qed.

(** [get_next_vertices] splits the unevaluated files: each of them, as
    often as it is listed, comes back either in the next level or among the
    unevaluated, and nothing else does.  With no evaluated file, or when no
    evaluated file occurs in any key, the next level is empty. *)
Theorem get_next_vertices_partition (PREFIX : string)
    (evaluated_files unevaluated_files next_level unevaluated : list string) :
  get_next_vertices PREFIX evaluated_files unevaluated_files = Some (next_level, unevaluated) ->
  Permutation (next_level ++ unevaluated) unevaluated_files
  /\ (forallb (fun k => negb (found_in evaluated_files k)) unevaluated_files = true ->
      next_level = [] /\ unevaluated = unevaluated_files).
Proof.
  intros H.
  destruct (String.eqb PREFIX "") eqn:E.
  - (* an empty separator: [split] is reached unless every list stays empty *)
    apply String.eqb_eq in E. subst PREFIX.
    assert (Hc : forall un n u d,
               (forall k, In k un -> found_in evaluated_files k = true) ->
               classify "" evaluated_files un (n, u, d) = Some (n ++ un, u, d)).
    { induction un as [|k r IH]; intros n u d Hall; simpl.
      - now rewrite app_nil_r.
      - rewrite (Hall k (or_introl eq_refl)). simpl.
        rewrite IH; [now rewrite <- app_assoc|]. intros y Hy. apply Hall. now right. }
    assert (Hn : forall un st, (exists k, In k un /\ found_in evaluated_files k = false) ->
               classify "" evaluated_files un st = None).
    { induction un as [|k r IH]; intros [[n u] d] [k0 [Hin Hk0]]; [destruct Hin|]. simpl.
      destruct (found_in evaluated_files k) eqn:Ek; simpl; [|reflexivity].
      apply IH. exists k0. split; [|exact Hk0].
      destruct Hin as [->|Hin]; [congruence | exact Hin]. }
    unfold get_next_vertices in H.
    destruct (forallb (found_in evaluated_files) unevaluated_files) eqn:Eall.
    + rewrite forallb_forall in Eall. rewrite (Hc _ _ _ _ Eall) in H. simpl in H.
      destruct unevaluated_files as [|k r].
      * simpl in H. injection H as <- <-. split; [constructor | now split].
      * simpl in H. discriminate.
    + rewrite Hn in H; [discriminate|].
      clear -Eall. induction unevaluated_files as [|k r IH]; simpl in Eall; [discriminate|].
      destruct (found_in evaluated_files k) eqn:Ek.
      * destruct (IH Eall) as [k0 [H1 H2]]. exists k0. split; [now right | exact H2].
      * exists k. split; [now left | exact Ek].
  - assert (HP : PREFIX <> ""%string).
    { intros ->. discriminate. }
    unfold get_next_vertices in H.
    rewrite (classify_spec _ _ HP) in H. simpl in H.
    rewrite (move_to_uneval_spec _ _ _ HP) in H.
    fold (held_back PREFIX evaluated_files unevaluated_files) in H.
    rewrite (move_loop_filter (held_back PREFIX evaluated_files unevaluated_files)
               (filter (found_in evaluated_files) unevaluated_files) [] _
               (fun y Hy => match Hy with end)) in H.
    simpl in H. rewrite !filter_filter in H. injection H as <- <-. split.
    + set (f := found_in evaluated_files).
      set (h := held_back PREFIX evaluated_files unevaluated_files).
      eapply Permutation_trans; [|apply (filter_split_perm f)].
      eapply Permutation_trans; [apply Permutation_app_comm|].
      rewrite <- app_assoc. eapply Permutation_trans; [apply Permutation_app_comm|].
      apply Permutation_app; [|apply Permutation_refl].
      rewrite <- (filter_filter h f), <- (filter_filter (fun k => negb (h k)) f).
      apply (filter_split_perm h).
    + intros Hall. rewrite forallb_forall in Hall.
      assert (Hnone : forall (g : string -> bool) l,
                 (forall k, In k l -> negb (found_in evaluated_files k) = true) ->
                 filter (fun k => found_in evaluated_files k && g k) l = []).
      { intros g l. induction l as [|k r IH]; intros Hl; simpl; [reflexivity|].
        pose proof (Hl k (or_introl eq_refl)) as Hk. apply negb_true_iff in Hk.
        rewrite Hk. simpl. apply IH. intros y Hy. apply Hl. now right. }
      rewrite !Hnone by assumption. rewrite app_nil_r. split; [reflexivity|].
      clear -Hall. induction unevaluated_files as [|k r IH]; simpl; [reflexivity|].
      rewrite (Hall k (or_introl eq_refl)). f_equal. apply IH.
      intros y Hy. apply Hall. now right.
Qed.

Lemma get_next_vertices_partition_witness :
  Permutation ([ "a.tf([{b.tf" ] ++ ["c.tf"; "c.tf([{a.tf"])
              ["a.tf([{b.tf"; "c.tf"; "c.tf([{a.tf"]
  /\ (forallb (fun k => negb (found_in ["a.tf"] k)) ["a.tf([{b.tf"; "c.tf"; "c.tf([{a.tf"] = true ->
      [ "a.tf([{b.tf" ] = [] /\ ["c.tf"; "c.tf([{a.tf"] = ["a.tf([{b.tf"; "c.tf"; "c.tf([{a.tf"]).
Proof.
  apply (get_next_vertices_partition "([{" ["a.tf"]). reflexivity.
Defined.

(** ** Environment variables *)

Lemma prefix_append (p s : string) :
  String.prefix p s = true -> exists r, s = (p ++ r)%string.
Proof.
  revert s. induction p as [|a p IH]; intros s H.
  - now exists s.
  - destruct s as [|b s]; simpl in H; [discriminate|].
    destruct (ascii_dec a b) as [->|]; [|discriminate]. simpl.
    destruct (IH s H) as [r ->]. now exists r.
Qed.

Lemma prefix_append_true (p r : string) : String.prefix p (p ++ r) = true.
Proof.
  induction p as [|a p IH]; simpl; [now destruct r|].
  destruct (ascii_dec a a); [exact IH | contradiction].
Qed.

Lemma substring_whole (s : string) : substring 0 (String.length s) s = s.
Proof. induction s as [|a s IH]; simpl; [reflexivity | now rewrite IH]. Qed.

Lemma str_drop_append (p r : string) : str_drop (String.length p) (p ++ r) = r.
Proof.
  unfold str_drop.
  assert (L : String.length (p ++ r) - String.length p = String.length r).
  { induction p as [|a p IH]; simpl; [lia | exact IH]. }
  rewrite L. clear L.
  induction p as [|a p IH]; simpl; [apply substring_whole | exact IH].
Qed.

Lemma append_inj_l (p r r' : string) : (p ++ r)%string = (p ++ r')%string -> r = r'.
Proof. induction p as [|a p IH]; simpl; intros H; [exact H | injection H; auto]. Qed.

Lemma assoc_None_not_In {A : Type} (k : string) (m : list (string * A)) :
  ~ In k (map fst m) -> assoc k m = None.
Proof.
  induction m as [|[k' a] m IH]; simpl; intros H; [reflexivity|].
  destruct (String.eqb k k') eqn:E.
  - apply String.eqb_eq in E. subst k'. exfalso. apply H. now left.
  - apply IH. intros Hin. apply H. now right.
Qed.

(** The environment step binds the name [n] exactly when the environment
    has the variable [TF_VAR_n]: to its value, as a string, with the origin
    [env:TF_VAR_n]; the variables without the prefix bind nothing, and a
    name without such a variable keeps what the defaults gave it. *)
Theorem env_vars_bind_by_prefix (n : string) (env_vars : list (string * string))
    (m : var_map) :
  NoDup (map fst env_vars) ->
  vm_get (KStr n) (env_vars_update env_vars m)
  = match assoc ("TF_VAR_" ++ n) env_vars with
    | Some v => Some (VStr v, ("env:TF_VAR_" ++ n)%string)
    | None => vm_get (KStr n) m
    end.
Proof.
  intros Hnd. revert m.
  induction env_vars as [|[k v] r IH]; intros m; [reflexivity|].
  inversion Hnd as [|? ? Hk Hr]; subst. specialize (IH Hr).
  cbn [env_vars_update assoc].
  destruct (String.eqb ("TF_VAR_" ++ n) k) eqn:E.
  - apply String.eqb_eq in E. subst k.
    unfold startswith. rewrite (prefix_append_true "TF_VAR_" n).
    rewrite IH, (assoc_None_not_In _ _ Hk).
    change 7 with (String.length "TF_VAR_"). rewrite str_drop_append.
    rewrite vm_get_vm_set. simpl. now rewrite String.eqb_refl.
  - destruct (startswith k "TF_VAR_") eqn:Es.
    + rewrite IH. destruct (assoc ("TF_VAR_" ++ n) r); [reflexivity|].
      rewrite vm_get_vm_set.
      destruct (key_eqb (KStr n) (KStr (str_drop 7 k))) eqn:Ek; [|reflexivity].
      apply key_eqb_eq in Ek. injection Ek as Ek.
      destruct (prefix_append _ _ Es) as [r' ->].
      change 7 with (String.length "TF_VAR_") in Ek. rewrite str_drop_append in Ek. subst r'.
      now rewrite String.eqb_refl in E.
    + now rewrite IH.
Qed.

Lemma env_vars_bind_by_prefix_witness :
  vm_get (KStr "region")
         (env_vars_update [("HOME", "/root"); ("TF_VAR_region", "eu")]
                          [(KStr "region", (VStr "us", "main.tf"))])
  = Some (VStr "eu", "env:TF_VAR_region").
Proof.
  rewrite (env_vars_bind_by_prefix "region"
             [("HOME", "/root"); ("TF_VAR_region", "eu")]
             [(KStr "region", (VStr "us", "main.tf"))]).
  - reflexivity.
  - repeat constructor; simpl; intuition discriminate.
Defined.

(** ** The caches *)

(** [get_dirname] returns the directory of the path, whatever the cache
    holds, as long as every name of the cache is the directory of its path;
    and it keeps the cache so.  The cache of a new parser is empty. *)
Theorem get_dirname_is_dirname (dirname_cache : list (string * string)) (path : string) :
  dirname_cache_ok dirname_cache ->
  fst (get_dirname dirname_cache path) = dirname path
  /\ dirname_cache_ok (snd (get_dirname dirname_cache path))
  /\ assoc path (snd (get_dirname dirname_cache path)) = Some (dirname path).
Proof.
  intros Hc. unfold get_dirname.
  assert (Hset : dirname_cache_ok (assoc_set path (dirname path) dirname_cache)).
  { intros k d. rewrite assoc_assoc_set.
    destruct (String.eqb k path) eqn:E.
    - apply String.eqb_eq in E. subst k. now intros [= <-].
    - apply Hc. }
  destruct (assoc path dirname_cache) as [d|] eqn:E.
  - destruct (String.eqb d "") eqn:Ed; simpl.
    + repeat split; [exact Hset|]. now rewrite assoc_assoc_set, String.eqb_refl.
    + pose proof (Hc _ _ E) as ->. repeat split; [exact Hc | exact E].
  - simpl. repeat split; [exact Hset|]. now rewrite assoc_assoc_set, String.eqb_refl.
Qed.

Lemma get_dirname_is_dirname_witness :
  fst (get_dirname [] "/r/mod/main.tf") = dirname "/r/mod/main.tf"
  /\ dirname_cache_ok (snd (get_dirname [] "/r/mod/main.tf"))
  /\ assoc "/r/mod/main.tf" (snd (get_dirname [] "/r/mod/main.tf"))
     = Some (dirname "/r/mod/main.tf").
Proof.
  apply (get_dirname_is_dirname [] "/r/mod/main.tf").
  intros path d H. simpl in H. discriminate.
Defined.

Lemma split_cached_spec (p : Parser) (files : list DirEntry) :
  split_cached p files
  = (map (fun f => (path f, heap_get p (path f))) (filter (cache_hit p) files),
     filter (fun f => negb (cache_hit p f)) files).
Proof.
  induction files as [|f r IH]; simpl; [reflexivity|].
  rewrite IH.
  assert (Hhit : cache_hit p f
                 = match heap_get p (path f) with Some v => truthy v | None => false end)
    by reflexivity.
  destruct (heap_get p (path f)) as [v|] eqn:E.
  - destruct (truthy v); rewrite Hhit; simpl; rewrite ?E; reflexivity.
  - rewrite Hhit. reflexivity.
Qed.

(** [_load_files] never raises.  It returns first the files whose cached
    payload is truthy, with that payload, and then the other files with
    what a fresh parse gives, each group in the order of [files].  It does
    not touch the definitions, and an entry of the cache is never replaced:
    a file whose cached payload is [None] or empty is parsed again at each
    call, and the cache keeps the old entry.  When every file is a cache
    hit the parser is left as it was. *)
Theorem load_files_cache (w : World) (files : list DirEntry) (p : Parser) :
  exists p',
    _load_files w files p
    = (p', inr (map (fun f => (path f, heap_get p (path f))) (filter (cache_hit p) files)
                ++ map (fun f => (path f, fst (_load_or_die_quietly (decoders w) (path f) [] true)))
                     (filter (fun f => negb (cache_hit p f)) files)))
    /\ out_definitions p' = out_definitions p
    /\ (forall k x, assoc k (loaded_files_map p) = Some x ->
                    assoc k (loaded_files_map p') = Some x)
    /\ (forallb (cache_hit p) files = true -> p' = p).
Proof.
  unfold _load_files. rewrite split_cached_spec.
  destruct (record_results (decoders w) (filter (fun f => negb (cache_hit p f)) files) p)
    as [parsed q] eqn:E.
  exists q.
  destruct (record_results_spec _ _ _ _ _ E) as [-> [Ho [_ [Hm _]]]].
  repeat split; auto.
  intros Hall.
  assert (Hnil : filter (fun f => negb (cache_hit p f)) files = []).
  { clear -Hall. induction files as [|f r IH]; simpl in *; [reflexivity|].
    apply andb_true_iff in Hall as [Hf Hr]. rewrite Hf. simpl. now apply IH. }
  rewrite Hnil in E. simpl in E. congruence.
Qed.

(** ** The keys of a module *)

Local Open Scope monad_scope.

Lemma assoc_assoc_del {A : Type} (k k' : string) (m : list (string * A)) :
  assoc k (assoc_del k' m) = if String.eqb k' k then None else assoc k m.
Proof.
  unfold assoc_del. induction m as [|[k0 a] m IH]; simpl.
  - now destruct (String.eqb k' k).
  - destruct (String.eqb k' k0) eqn:E0; simpl.
    + rewrite IH. destruct (String.eqb k' k) eqn:E; [reflexivity|].
      apply String.eqb_eq in E0. subst k0.
      now rewrite String.eqb_sym, E.
    + destruct (String.eqb k k0) eqn:E1.
      * apply String.eqb_eq in E1. subst k0. now rewrite E0.
      * exact IH.
Qed.

Lemma In_set_add (x y : string) (l : list string) :
  In y (set_add x l) <-> y = x \/ In y l.
Proof.
  unfold set_add. destruct (in_strings x l) eqn:E.
  - apply in_strings_In in E. split; [now right|]. intros [->|H]; assumption.
  - rewrite in_app_iff. simpl. intuition congruence.
Qed.

Lemma str_in_append_new (x k : string) (l : list value) :
  str_in x (append_new l k) = String.eqb x k || str_in x l.
Proof.
  unfold append_new. destruct (str_in k l) eqn:E.
  - destruct (String.eqb x k) eqn:Ex; [|reflexivity].
    apply String.eqb_eq in Ex. subst x. now rewrite E.
  - unfold str_in. rewrite existsb_app. simpl.
    now rewrite orb_false_r, orb_comm.
Qed.

Lemma rewrite_key_step (file : string) (module_index : nat)
    (s : list (string * string) * list value) (k : string) (p : Parser) :
  exists p' s',
    rewrite_key file module_index s k p = (p', inr s')
    /\ loaded_files_map p' = loaded_files_map p
    /\ (forall k', assoc k' (out_definitions p) = None -> assoc k' (out_definitions p') = None)
    /\ (forall k', In k' (keys_referenced_as_modules p) -> In k' (keys_referenced_as_modules p'))
    /\ (forall x, str_in x (snd s) = true -> str_in x (snd s') = true)
    /\ (endswith k "]" || endswith file "]" = false ->
        assoc k (out_definitions p') = None
        /\ In k (keys_referenced_as_modules p')
        /\ str_in (get_tf_definition_key_from_module_dependency k file module_index) (snd s')
           = true).
Proof.
  unfold rewrite_key. destruct s as [module_definitions resolved_loc_list].
  destruct (endswith k "]" || endswith file "]").
  - exists p, (module_definitions, resolved_loc_list). unfold ret.
    repeat split; auto; discriminate.
  - unfold bind, modify, ret. simpl. eexists. eexists. split; [reflexivity|].
    simpl. repeat split.
    + intros k' H. rewrite assoc_assoc_del, H. now destruct (String.eqb k k').
    + intros k' H. apply In_set_add. now right.
    + intros x H. now rewrite str_in_append_new, H, orb_true_r.
    + now rewrite assoc_assoc_del, String.eqb_refl.
    + apply In_set_add. now left.
    + now rewrite str_in_append_new, String.eqb_refl.
Qed.

Lemma rewrite_keys_loop (file : string) (module_index : nat) (keys : list string) :
  forall (s : list (string * string) * list value) (p : Parser),
  exists p' s',
    for_fold keys s (rewrite_key file module_index) p = (p', inr s')
    /\ loaded_files_map p' = loaded_files_map p
    /\ (forall k', assoc k' (out_definitions p) = None -> assoc k' (out_definitions p') = None)
    /\ (forall k', In k' (keys_referenced_as_modules p) -> In k' (keys_referenced_as_modules p'))
    /\ (forall x, str_in x (snd s) = true -> str_in x (snd s') = true)
    /\ (endswith file "]" = false ->
        forall k, In k keys -> endswith k "]" = false ->
          assoc k (out_definitions p') = None
          /\ In k (keys_referenced_as_modules p')
          /\ str_in (get_tf_definition_key_from_module_dependency k file module_index) (snd s')
             = true).
Proof.
  induction keys as [|x r IH]; intros s p.
  - exists p, s. simpl. unfold ret.
    split; [reflexivity|]. split; [reflexivity|]. split; [auto|]. split; [auto|].
    split; [auto|]. intros _ k [].
  - destruct (rewrite_key_step file module_index s x p)
      as [p1 [s1 [E1 [Hl1 [Ho1 [Hk1 [Hs1 Hx1]]]]]]].
    destruct (IH s1 p1) as [p2 [s2 [E2 [Hl2 [Ho2 [Hk2 [Hs2 Hr2]]]]]]].
    exists p2, s2. simpl. unfold bind. rewrite E1.
    split; [exact E2|]. split; [congruence|].
    split; [auto|]. split; [auto|]. split; [auto|].
    intros Hfile k [<-|Hin] Hk.
    + destruct Hx1 as [Ha [Hb Hc]]; [now rewrite Hk, Hfile | auto].
    + now apply Hr2.
Qed.



Lemma assoc_fold_del {A : Type} (k : string) (ks : list string) :
  forall defs : list (string * A),
    assoc k (fold_left (fun acc k' => assoc_del k' acc) ks defs)
    = if in_strings k ks then None else assoc k defs.
Proof.
  induction ks as [|a ks IH]; intros defs; simpl; [reflexivity|].
  rewrite IH, assoc_assoc_del. rewrite (String.eqb_sym k a).
  destruct (String.eqb a k); simpl; [now destruct (in_strings k ks) | reflexivity].
Qed.

(** When [parse_directory] returns, no key that was referenced as a module
    is a key of the definitions, nor of the store the caller reads; so it
    is also for the files of a module whose directory the walk loads again
    on its own. *)
Theorem referenced_keys_removed (depth : nat) (w : World) (env : list (string * string))
    (directory : string) (vars_files excluded_paths : option (list string))
    (p p' : Parser) :
  parse_directory depth w env directory vars_files excluded_paths p = (p', inr tt) ->
  forall k, In k (keys_referenced_as_modules p') ->
    assoc k (out_definitions p') = None
    /\ definition p' k = None
    /\ ~ In k (map fst (store p')).
Proof.
  intros H k Hk. unfold parse_directory in H.
  apply bind_inr in H as [p1 [[] [_ H]]].
  apply bind_inr in H as [p2 [[] [_ H]]].
  apply bind_inr in H as [p3 [[] [_ H]]].
  apply bind_inr in H as [p4 [q [Hg H]]].
  unfold get_parser in Hg. injection Hg as <- <-.
  unfold modify in H. injection H as <-.
  simpl in Hk. apply in_strings_In in Hk.
  assert (Ha : assoc k (out_definitions
                          (set_out_definitions
                             (fun defs => fold_left (fun acc k' => assoc_del k' acc)
                                                    (keys_referenced_as_modules p3) defs) p3))
               = None).
  { simpl. now rewrite assoc_fold_del, Hk. }
  split; [exact Ha|]. split.
  - unfold definition. now rewrite Ha.
  - intros Hin. apply in_map_iff in Hin as [[k0 v] [Ek Hin]]. simpl in Ek. subst k0.
    unfold store in Hin. apply in_flat_map in Hin as [[k1 oid] [Hd Hin]].
    destruct (heap_get _ oid); [|destruct Hin].
    destruct Hin as [Hin|[]]. injection Hin as -> _.
    assert (Hsome : forall (m : list (string * string)) a b, In (a, b) m -> assoc a m <> None).
    { induction m as [|[a0 b0] m IH]; intros a b Hm; [destruct Hm|]. simpl.
      destruct (String.eqb a a0) eqn:E; [discriminate|].
      destruct Hm as [Hm|Hm]; [|exact (IH _ _ Hm)].
      injection Hm as -> _. now rewrite String.eqb_refl in E. }
    exact (Hsome _ _ _ Hd Ha).
Qed.

Lemma referenced_keys_removed_witness :
  assoc "/r/mod/main.tf"
        (out_definitions
           (fst (parse_directory 5 unresolved_world [] "/r" None None new_parser))) = None
  /\ definition (fst (parse_directory 5 unresolved_world [] "/r" None None new_parser))
                "/r/mod/main.tf" = None
  /\ ~ In "/r/mod/main.tf"
          (map fst (store (fst (parse_directory 5 unresolved_world [] "/r" None None
                                                new_parser)))).
Proof.
  apply (referenced_keys_removed 5 unresolved_world [] "/r" None None new_parser
           (fst (parse_directory 5 unresolved_world [] "/r" None None new_parser))).
  - vm_compute. reflexivity.
  - vm_compute. now left.
Defined.

(** ** The overrides of a module call *)

Lemma specified_vars_win_witness :
  exists v,
    In (KStr "v", v) [(KStr "v", VStr "s")]
    /\ vm_get (KStr "v") [(KStr "v", (VStr "s", "manual specification"))]
       = Some (v, "manual specification").
Proof.
  apply (specified_vars_win precedence_world "/r" [("TF_VAR_v", "e")]
           [(KStr "v", VStr "s")] None None new_parser
           (fst (load_dir_files precedence_world "/r" [("TF_VAR_v", "e")]
                                (Some [(KStr "v", VStr "s")]) None None new_parser))
           [(KStr "v", (VStr "s", "manual specification"))] (KStr "v") (VStr "s")).
  - vm_compute. reflexivity.
  - now left.
Defined.
